(** * HLT plugin modules: HLTDisplacedEgammaFilter, AlCaRecoTriggerBitsRcdUpdate
      and the menu-regeneration script.

    The development has two parts.  The first part embeds the code: one
    module per source unit, each definition following the source function of
    the same name.  The second part states and proves the properties. *)

From Stdlib Require Import ZArith QArith Qabs List Bool Lia.
From stdpp Require Import base option strings gmap pretty.
Import ListNotations.

Local Open Scope Z_scope.
#[local] Set Warnings "-clear-no-such-hyp".

(* ===================================================================== *)
(** * Part I.  Embedding of the code                                      *)
(* ===================================================================== *)

(** ** Machine integers *)

Module MachineInt.

(** [unsigned int]: arithmetic modulo 2^32. *)
Definition UINT_MODULUS : Z := 2 ^ 32.
Definition wrap_unsigned (z : Z) : Z := z mod UINT_MODULUS.

(** [int]: 32 bits, two's complement.  Signed overflow is undefined in
    C++; the wrap-around written here is what the usual targets do, and
    the theorems below only rely on runs in which no counter overflows. *)
Definition INT_MAX : Z := 2 ^ 31 - 1.
Definition wrap_signed (z : Z) : Z := (z + 2 ^ 31) mod 2 ^ 32 - 2 ^ 31.

(** [n++] on an [int]. *)
Definition int_incr (n : Z) : Z := wrap_signed (n + 1).

End MachineInt.

(* --------------------------------------------------------------------- *)
(** ** CondTools/HLT/src/AlCaRecoTriggerBitsRcdUpdate.cc                   *)
(* --------------------------------------------------------------------- *)

Module AlCaRecoTriggerBitsRcdUpdate.
Import MachineInt.

(** [typedef std::map<std::string, std::string> TriggerMap]. *)
Abbreviation TriggerMap := (gmap string string).

(** [cms::Exception(category) << message]. *)
Record Exception := cms_Exception { category : string; what : string }.

(** Messages sent to the MessageLogger. *)
Inductive Severity := LogInfo | LogWarning.
Record LogMessage := Log { severity : Severity; log_category : string; text : string }.

(** One entry of [triggerListsAdd]: a PSet with [listName] and [hltPaths].
    The helpers read the two with [getParameter], which throws for a PSet
    that lacks one of them; the entries here are the PSets that hold both,
    and so are those of [alcarecoToReplace] below. *)
Record TriggerListPSet := { listName : string; hltPaths : list string }.

(** One entry of [alcarecoToReplace]: a PSet with [oldKey] and [newKey]. *)
Record ReplacePSet := { oldKey : string; newKey : string }.

(** The module's configuration (its [const] data members). *)
Record Config := {
  firstRunIOV_ : Z;
  lastRunIOV_ : Z;
  startEmpty_ : bool;
  listNamesRemove_ : list string;
  triggerListsAdd_ : list TriggerListPSet;
  alcarecoReplace_ : list ReplacePSet
}.

(** A call [poolDbService->writeOneIOV(payload, since, recordName)]. *)
Record IOVWrite := { payload : TriggerMap; since : Z; recordName : string }.

(** Everything [analyze] and its helpers read and write:
    - [nEventCalls_], the [unsigned int] data member;
    - [bitsToWrite], the map [bitsToWrite->m_alcarecoToTrig]: [analyze]
      passes this one object by reference to each helper, so the helpers
      below all act on this cell;
    - [messages], what was sent to the MessageLogger, oldest first;
    - [database], the [writeOneIOV] calls made so far, oldest first. *)
Record Store := {
  nEventCalls_ : Z;
  bitsToWrite : TriggerMap;
  messages : list LogMessage;
  database : list IOVWrite
}.

Definition set_nEventCalls (n : Z) (s : Store) : Store :=
  {| nEventCalls_ := n; bitsToWrite := bitsToWrite s;
     messages := messages s; database := database s |}.
Definition set_bitsToWrite (m : TriggerMap) (s : Store) : Store :=
  {| nEventCalls_ := nEventCalls_ s; bitsToWrite := m;
     messages := messages s; database := database s |}.
Definition add_message (l : LogMessage) (s : Store) : Store :=
  {| nEventCalls_ := nEventCalls_ s; bitsToWrite := bitsToWrite s;
     messages := messages s ++ [l]; database := database s |}.
Definition add_write (w : IOVWrite) (s : Store) : Store :=
  {| nEventCalls_ := nEventCalls_ s; bitsToWrite := bitsToWrite s;
     messages := messages s; database := database s ++ [w] |}.

(** A computation either returns a value or throws; the store it leaves
    behind is kept in both cases. *)
Inductive Outcome (A : Type) := Returns (a : A) | Throws (e : Exception).
Arguments Returns {A} a.
Arguments Throws {A} e.

Definition M (A : Type) : Type := Store -> Outcome A * Store.

#[export] Instance M_ret : MRet M := fun A a s => (Returns a, s).
#[export] Instance M_bind : MBind M := fun A B f m s =>
  match m s with
  | (Returns a, s') => f a s'
  | (Throws e, s') => (Throws e, s')
  end.

Definition throw {A} (e : Exception) : M A := fun s => (Throws e, s).
Definition gets {A} (f : Store -> A) : M A := fun s => (Returns (f s), s).
Definition modify (f : Store -> Store) : M unit := fun s => (Returns tt, f s).

(** What the host supplies: [AlCaRecoTriggerBits::compose], which merges a
    list of paths into the one string stored in the map, and whether the
    [PoolDBOutputService] is available. *)
Class Host := {
  compose : list string -> string;
  poolDbService_isAvailable : bool
}.

(** The exceptions thrown and the messages logged (the line breaks of the
    message texts are left out). *)
Definition cannot_remove (key : string) : Exception :=
  cms_Exception "BadConfig"
    ("[AlCaRecoTriggerBitsRcdUpdate::removeKeysFromMap] Cannot remove key '"
       +:+ key +:+ "' since not in list - typo in configuration?").

Definition already_in_map (filter : string) : Exception :=
  cms_Exception "BadConfig"
    ("List name '" +:+ filter
       +:+ "' already in map, either remove from 'triggerListsAdd' or  add to 'listNamesRemove'.").

Definition service_not_available : Exception :=
  cms_Exception "NotAvailable" "PoolDBOutputService not available.".

Definition cannot_replace (old new : string) : LogMessage :=
  Log LogWarning "AlCaRecoTriggerBitsRcdUpdate"
    ("[AlCaRecoTriggerBitsRcdUpdate::replaceKeysFromMap] Cannot replace key '"
       +:+ old +:+ "with " +:+ new +:+ " since not in list - typo in configuration?").

Definition uploading : LogMessage :=
  Log LogInfo EmptyString "Uploading to the database...".

Definition done_for_runs (first last : Z) : LogMessage :=
  Log LogInfo EmptyString
    ("...done for runs " +:+ pretty first +:+ " to " +:+ pretty last
       +:+ " (< 0 meaning infinity)!").

Definition write_only_once : LogMessage :=
  Log LogWarning "BadConfig"
    "@SUB=analyzeWriting to DB to be done only once, set 'process.maxEvents = cms.untracked.PSet(input = cms.untracked.int32(1))' next time. But your writing is fine.)".

Section Code.
Context `{Host}.

(** [removeKeysFromMap(keys, triggerMap)] *)
Fixpoint removeKeysFromMap (keys : list string) : M bool :=
  match keys with
  | [] => mret true
  | iKey :: rest =>
      triggerMap ← gets bitsToWrite;
      if decide (is_Some (triggerMap !! iKey)) then
        modify (set_bitsToWrite (delete iKey triggerMap));;
        removeKeysFromMap rest
      else
        throw (cannot_remove iKey)
  end.

(** The second loop of [replaceKeysFromMap], over the key pairs. *)
Fixpoint replaceKeyPairs (keyPairs : list (string * string)) : M bool :=
  match keyPairs with
  | [] => mret true
  | iKey :: rest =>
      triggerMap ← gets bitsToWrite;
      match triggerMap !! iKey.1 with
      | Some bitsToReplace =>
          modify (set_bitsToWrite (<[iKey.2 := bitsToReplace]> (delete iKey.1 triggerMap)));;
          replaceKeyPairs rest
      | None =>
          modify (add_message (cannot_replace iKey.1 iKey.2));;
          mret false
      end
  end.

(** [replaceKeysFromMap(alcarecoReplace, triggerMap)] *)
Definition replaceKeysFromMap (alcarecoReplace : list ReplacePSet) : M bool :=
  let keyPairs := map (fun iSet => (oldKey iSet, newKey iSet)) alcarecoReplace in
  replaceKeyPairs keyPairs.

(** [addTriggerLists(triggerListsAdd, bits)] *)
Fixpoint addTriggerLists (triggerListsAdd : list TriggerListPSet) : M bool :=
  match triggerListsAdd with
  | [] => mret true
  | iSet :: rest =>
      let paths := hltPaths iSet in
      let mergedPaths := compose paths in
      let filter := listName iSet in
      triggerMap ← gets bitsToWrite;
      if decide (is_Some (triggerMap !! filter)) then
        throw (already_in_map filter)
      else
        modify (set_bitsToWrite (<[filter := mergedPaths]> triggerMap));;
        addTriggerLists rest
  end.

(** [writeBitsToDB(bitsToWrite)] *)
Definition writeBitsToDB (cfg : Config) : M unit :=
  modify (add_message uploading);;
  if negb poolDbService_isAvailable then
    throw service_not_available
  else
    bits ← gets bitsToWrite;
    modify (add_write {| payload := bits; since := firstRunIOV_ cfg;
                         recordName := "AlCaRecoTriggerBitsRcd" |});;
    modify (add_message (done_for_runs (firstRunIOV_ cfg) (lastRunIOV_ cfg))).

(** [analyze(evt, iSetup)]; [iSetup] is the map of the
    [AlCaRecoTriggerBits] record read from the event setup. *)
Definition analyze (cfg : Config) (iSetup : TriggerMap) : M unit :=
  n ← gets nEventCalls_;
  modify (set_nEventCalls (wrap_unsigned (n + 1)));;
  if 0 <? n then
    modify (add_message write_only_once)
  else
    modify (set_bitsToWrite (if startEmpty_ cfg then ∅ else iSetup));;
    removeKeysFromMap (listNamesRemove_ cfg);;
    addTriggerLists (triggerListsAdd_ cfg);;
    replaceKeysFromMap (alcarecoReplace_ cfg);;
    writeBitsToDB cfg.

(** The framework calls [analyze] once per event; an exception ends the
    job, so the calls after one that throws are not made. *)
Fixpoint analyze_events (cfg : Config) (events : list TriggerMap) : M unit :=
  match events with
  | [] => mret tt
  | iSetup :: rest => analyze cfg iSetup;; analyze_events cfg rest
  end.

End Code.

(** The state of a freshly constructed module: [nEventCalls_(0)]. *)
Definition constructed : Store :=
  {| nEventCalls_ := 0; bitsToWrite := ∅; messages := []; database := [] |}.


(** *** Vocabulary of the properties

    The map operations the helpers are meant to perform, written on maps
    alone, and the repeated call of [analyze]. *)

(** The map without the listed keys. *)
Definition erase_keys (keys : list string) (m : TriggerMap) : TriggerMap :=
  foldl (fun m k => delete k m) m keys.

(** The map with one entry added per trigger list, the later ones last. *)
Definition add_lists `{Host} (lists : list TriggerListPSet) (m : TriggerMap) : TriggerMap :=
  foldl (fun m iSet => <[listName iSet := compose (hltPaths iSet)]> m) m lists.

(** Moving the value stored under [old] to [new]. *)
Definition rename_key (old new : string) (m : TriggerMap) : TriggerMap :=
  match m !! old with
  | Some v => <[new := v]> (delete old m)
  | None => m
  end.

(** Renaming pair after pair, up to the first pair whose old key is not
    in the map at that moment. *)
Fixpoint rename_keys (pairs : list ReplacePSet) (m : TriggerMap) : TriggerMap :=
  match pairs with
  | [] => m
  | iSet :: rest =>
      if decide (is_Some (m !! oldKey iSet)) then
        rename_keys rest (rename_key (oldKey iSet) (newKey iSet) m)
      else m
  end.

(** The first pair whose old key is not in the map when its turn comes. *)
Fixpoint first_missing (pairs : list ReplacePSet) (m : TriggerMap) : option ReplacePSet :=
  match pairs with
  | [] => None
  | iSet :: rest =>
      if decide (is_Some (m !! oldKey iSet)) then
        first_missing rest (rename_key (oldKey iSet) (newKey iSet) m)
      else Some iSet
  end.

(** The call [writeOneIOV(bits, firstRunIOV_, "AlCaRecoTriggerBitsRcd")]. *)
Definition write_of (cfg : Config) (bits : TriggerMap) : IOVWrite :=
  {| payload := bits; since := firstRunIOV_ cfg; recordName := "AlCaRecoTriggerBitsRcd" |}.

(** The map [analyze] starts from. *)
Definition initial_bits (cfg : Config) (iSetup : TriggerMap) : TriggerMap :=
  if startEmpty_ cfg then ∅ else iSetup.

(** A configuration with which neither removal nor insertion throws on
    the map [m0] they start from. *)
Definition removal_and_insertion_fit `{Host} (cfg : Config) (m0 : TriggerMap) : Prop :=
  NoDup (listNamesRemove_ cfg)
  /\ (forall k, k ∈ listNamesRemove_ cfg -> is_Some (m0 !! k))
  /\ NoDup (map listName (triggerListsAdd_ cfg))
  /\ (forall l, l ∈ map listName (triggerListsAdd_ cfg) ->
        erase_keys (listNamesRemove_ cfg) m0 !! l = None).

(** The store after [k] further calls of [analyze], each with the event
    setup [iSetup]: every call starts from the store the one before left.
    Used for runs in which no call throws. *)
Definition after_events `{Host} (cfg : Config) (iSetup : TriggerMap) (k : N) (s : Store) : Store :=
  N.iter k (fun s => (analyze cfg iSetup s).2) s.

(** *** Concrete configurations used in the examples *)

(** A host whose [compose] joins the paths with [;] and whose database
    service is available. *)
Definition join_paths (paths : list string) : string :=
  foldr (fun path acc => if decide (acc = EmptyString) then path else path +:+ ";" +:+ acc)
        EmptyString paths.

Definition host_with_database : Host :=
  {| compose := join_paths; poolDbService_isAvailable := true |}.

(** Nothing to remove, add or rename, starting from an empty map. *)
Definition cfg_write_only : Config :=
  {| firstRunIOV_ := 1; lastRunIOV_ := -1; startEmpty_ := true;
     listNamesRemove_ := []; triggerListsAdd_ := []; alcarecoReplace_ := [] |}.

(** Removes one list, adds one, renames one. *)
Definition cfg_update : Config :=
  {| firstRunIOV_ := 1; lastRunIOV_ := -1; startEmpty_ := false;
     listNamesRemove_ := ["TkAlMinBias"];
     triggerListsAdd_ := [ {| listName := "SiStripCalZeroBias";
                              hltPaths := ["HLT_ZeroBias_v*"; "HLT_Random_v*"] |} ];
     alcarecoReplace_ := [ {| oldKey := "TkAlMuonIsolated"; newKey := "TkAlMuonIsolatedPA" |} ] |}.


Definition old_bits : TriggerMap :=
  {[ "TkAlMinBias" := "HLT_MinBias_v*"; "TkAlMuonIsolated" := "HLT_IsoMu24_v*" ]}.

Definition store_with (m : TriggerMap) : Store :=
  {| nEventCalls_ := 0; bitsToWrite := m; messages := []; database := [] |}.

End AlCaRecoTriggerBitsRcdUpdate.

(* --------------------------------------------------------------------- *)
(** ** HLTDisplacedEgammaFilter                                            *)
(* --------------------------------------------------------------------- *)

(** The filter only compares its [double] and [float] quantities with one
    another and takes absolute values; it does no arithmetic on them.  A
    value is a number, taken as a rational, or not-a-number; the
    comparison operators are those of C++ (a [float] compared with a
    [double] is first widened, which keeps its value): every comparison
    with a NaN is false.  Infinities and rounding are not modelled. *)
Module Double.
Inductive t := NaN | Num (q : Q).
Bind Scope Q_scope with t.
Definition le (x y : t) : bool :=
  match x, y with
  | Num a, Num b => Qle_bool a b
  | _, _ => false
  end.
Definition lt (x y : t) : bool :=
  match x, y with
  | Num a, Num b => negb (Qle_bool b a)
  | _, _ => false
  end.
Definition ge (x y : t) : bool := le y x.
Definition gt (x y : t) : bool := lt y x.
Definition abs (x : t) : t :=
  match x with
  | Num a => Num (Qabs a)
  | NaN => NaN
  end.
End Double.

Bind Scope Q_scope with Double.t.
Coercion Double.Num : Q >-> Double.t.
Arguments Double.le : simpl never.
Arguments Double.lt : simpl never.
Arguments Double.ge : simpl never.
Arguments Double.gt : simpl never.
Arguments Double.abs : simpl never.

Module HLTDisplacedEgammaFilter.
Import MachineInt.

Abbreviation InputTag := string.
Abbreviation DetId := Z.

(** [EcalRecHit]: the crystal and the reconstructed time, which may be a
    NaN. *)
Record EcalRecHit := { detid : DetId; time : Double.t }.
Abbreviation EcalRecHitCollection := (list EcalRecHit).

(** [rechits->find(id)]: the hit of that crystal, or [end()] ([None]). *)
Definition find (rechits : EcalRecHitCollection) (key : DetId) : option EcalRecHit :=
  List.find (fun hit => detid hit =? key) rechits.

Record CaloCluster := { hitsAndFractions : list (DetId * Q) }.
Record SuperCluster := { seed : CaloCluster }.
Record LorentzVector := { Px : Q; Py : Q; Pz : Q; E : Q }.

(** [reco::RecoEcalCandidate], as far as the filter looks at it; its eta
    may be a NaN.  An [edm::Ref] to a candidate is modelled by the
    candidate it points to. *)
Record RecoEcalCandidate := {
  eta : Double.t;
  p4 : LorentzVector;
  superCluster : SuperCluster
}.
Abbreviation Ref := RecoEcalCandidate.

(** [reco::Track]: the momentum as the filter reads it.  The components are
    numbers: [pt()] is computed from them, so that a track with a NaN in
    its momentum has a NaN distance to every candidate as well, and is
    not counted by the veto. *)
Record Track := { pt : Q; px : Q; py : Q; pz : Q; p : Q }.

(** [Cluster2ndMoments]: each moment may be a NaN. *)
Record Cluster2ndMoments := { sMaj : Double.t; sMin : Double.t; alpha : Double.t }.

(** The two trigger object types the filter uses. *)
Inductive TriggerObjectType := TriggerPhoton | TriggerCluster.

#[export] Instance TriggerObjectType_eq_dec : EqDecision TriggerObjectType.
Proof. solve_decision. Defined.

(** [trigger::TriggerFilterObjectWithRefs]: the collection tags and the
    candidate references, each stored with its object type, in the order
    in which they were added. *)
Record TriggerFilterObjectWithRefs := {
  collectionTags : list InputTag;
  photons : list (TriggerObjectType * Ref)
}.

(** [getObjects(id, refs)]: [refs] becomes the references stored under [id]. *)
Definition getObjects (obj : TriggerFilterObjectWithRefs) (id : TriggerObjectType) : list Ref :=
  map snd (List.filter (fun o => bool_decide (o.1 = id)) (photons obj)).

Definition addObject (id : TriggerObjectType) (ref : Ref)
    (obj : TriggerFilterObjectWithRefs) : TriggerFilterObjectWithRefs :=
  {| collectionTags := collectionTags obj; photons := photons obj ++ [(id, ref)] |}.

Definition addCollectionTag (tag : InputTag)
    (obj : TriggerFilterObjectWithRefs) : TriggerFilterObjectWithRefs :=
  {| collectionTags := collectionTags obj ++ [tag]; photons := photons obj |}.

(** The configuration: the data members set by the constructor, and
    [saveTags()] of the base class.  The cut values are numbers. *)
Record Config := {
  saveTags : bool;
  l1EGTag_ : InputTag;
  ncandcut_ : Z;
  trkPtCut : Q;
  trkdRCut : Q;
  maxTrkCut : Z;
  EBOnly : bool;
  sMin_min : Q;
  sMin_max : Q;
  sMaj_min : Q;
  sMaj_max : Q;
  seedTimeMin : Q;
  seedTimeMax : Q
}.

(** The products read from the event. *)
Record Event := {
  PrevFilterOutput : TriggerFilterObjectWithRefs;
  tracks : list Track;
  rechitsEB_ : EcalRecHitCollection;
  rechitsEE_ : EcalRecHitCollection
}.

(** Reconstruction tools the filter calls and this repository part does
    not contain: [EcalClusterTools::cluster2ndMoments],
    [EcalClusterTools::getMaximum] (the crystal of largest energy of a
    cluster, with that energy) and [ROOT::Math::VectorUtil::DeltaR], whose
    result may be a NaN. *)
Class Tools := {
  cluster2ndMoments : CaloCluster -> EcalRecHitCollection -> Cluster2ndMoments;
  getMaximum : CaloCluster -> EcalRecHitCollection -> DetId * Q;
  DeltaR : LorentzVector -> LorentzVector -> Double.t
}.

(** The cuts, in the order of the source text. *)
Inductive Cut := EtaCut | SMinCut | SMajCut | SeedTimeCut | TrackVetoCut.

#[export] Instance Cut_eq_dec : EqDecision Cut.
Proof. solve_decision. Defined.

(** One evaluated [if (...) continue;]: which cut, and whether its
    condition held (the candidate is then skipped). *)
Record Applied := { cut : Cut; skips : bool }.

(** How one pass through the loop body ends. *)
Inductive Verdict := Skipped | Passed.

(** The loop body is run in a monad that records the cuts it evaluates,
    in order, and that has no result when the body dereferences the
    [end()] iterator. *)
Definition W (A : Type) : Type := option (A * list Applied).

#[export] Instance W_ret : MRet W := fun A a => Some (a, []).
#[export] Instance W_bind : MBind W := fun A B f m =>
  match m with
  | Some (a, l1) =>
      match f a with
      | Some (b, l2) => Some (b, l1 ++ l2)
      | None => None
      end
  | None => None
  end.

Definition test (c : Cut) (condition : bool) : W bool :=
  Some (condition, [{| cut := c; skips := condition |}]).
Definition deref {A} (it : option A) : W A :=
  match it with Some a => Some (a, []) | None => None end.

Section Code.
Context `{Tools}.
Variable cfg : Config.

(** The inner loop over the tracks, entered with the current [nTrk];
    its result is [nTrk] when the loop is left. *)
Fixpoint count_tracks (ref : Ref) (trks : list Track) (nTrk : Z) : Z :=
  match trks with
  | [] => nTrk
  | it :: rest =>
      if Double.lt (pt it) (trkPtCut cfg) then count_tracks ref rest nTrk
      else
        let trkP4 := {| Px := px it; Py := py it; Pz := pz it; E := p it |} in
        let dR := DeltaR trkP4 (p4 ref) in
        let nTrk := if Double.lt dR (trkdRCut cfg) then int_incr nTrk else nTrk in
        if nTrk >? maxTrkCut cfg then nTrk
        else count_tracks ref rest nTrk
  end.

(** The body of the loop over the candidates. *)
Definition loop_body (ev : Event) (ref : Ref) : W Verdict :=
  skip ← test EtaCut (EBOnly cfg && Double.ge (Double.abs (eta ref)) 1.479);
  if skip : bool then mret Skipped else
  let SCseed := seed (superCluster ref) in
  let rechits :=
    if Double.lt (Double.abs (eta ref)) 1.479 then rechitsEB_ ev else rechitsEE_ ev in
  let moments := cluster2ndMoments SCseed rechits in
  let sMin := sMin moments in
  let sMaj := sMaj moments in
  skip ← test SMinCut (Double.lt sMin (sMin_min cfg) || Double.gt sMin (sMin_max cfg));
  if skip : bool then mret Skipped else
  skip ← test SMajCut (Double.lt sMaj (sMaj_min cfg) || Double.gt sMaj (sMaj_max cfg));
  if skip : bool then mret Skipped else
  let maxRH := getMaximum SCseed rechits in
  let seedCrystalId := maxRH.1 in
  seedRH ← deref (find rechits seedCrystalId);
  let seedTime := time seedRH in
  skip ← test SeedTimeCut
           (Double.lt seedTime (seedTimeMin cfg) || Double.gt seedTime (seedTimeMax cfg));
  if skip : bool then mret Skipped else
  let nTrk := count_tracks ref (tracks ev) 0 in
  skip ← test TrackVetoCut (nTrk >? maxTrkCut cfg);
  if skip : bool then mret Skipped else
  mret Passed.

(** What the loop over the candidates carries along: the counter [n],
    the filter product, and for every candidate seen so far the cuts
    that were evaluated on it. *)
Record LoopState := {
  n : Z;
  filterproduct : TriggerFilterObjectWithRefs;
  evaluated : list (list Applied)
}.

Fixpoint candidates_loop (ev : Event) (recoecalcands : list Ref) (st : LoopState)
    : option LoopState :=
  match recoecalcands with
  | [] => Some st
  | ref :: rest =>
      match loop_body ev ref with
      | None => None
      | Some (Skipped, log) =>
          candidates_loop ev rest
            {| n := n st; filterproduct := filterproduct st;
               evaluated := evaluated st ++ [log] |}
      | Some (Passed, log) =>
          candidates_loop ev rest
            {| n := int_incr (n st);
               filterproduct := addObject TriggerCluster ref (filterproduct st);
               evaluated := evaluated st ++ [log] |}
      end
  end.

(** The candidates the filter looks at. *)
Definition recoecalcands (ev : Event) : list Ref :=
  let recoecalcands := getObjects (PrevFilterOutput ev) TriggerCluster in
  if bool_decide (recoecalcands = []) then getObjects (PrevFilterOutput ev) TriggerPhoton
  else recoecalcands.

(** What a call of [hltFilter] yields: the returned decision, the filter
    product as the call leaves it, and the cuts it evaluated. *)
Record Result := {
  accept : bool;
  product : TriggerFilterObjectWithRefs;
  cuts_evaluated : list (list Applied)
}.

(** [hltFilter(iEvent, iSetup, filterproduct)] *)
Definition hltFilter (ev : Event) (filterproduct0 : TriggerFilterObjectWithRefs)
    : option Result :=
  let filterproduct0 :=
    if saveTags cfg then addCollectionTag (l1EGTag_ cfg) filterproduct0
    else filterproduct0 in
  match candidates_loop ev (recoecalcands ev)
          {| n := 0; filterproduct := filterproduct0; evaluated := [] |} with
  | None => None
  | Some st =>
      Some {| accept := n st >=? ncandcut_ cfg;
              product := filterproduct st;
              cuts_evaluated := evaluated st |}
  end.

End Code.

(** The default configuration of [fillDescriptions]. *)
Definition cfg_default : Config :=
  {| saveTags := true; l1EGTag_ := "hltL1IsoRecoEcalCandidate";
     ncandcut_ := 1; trkPtCut := 3.0; trkdRCut := 0.5; maxTrkCut := 0;
     EBOnly := false;
     sMin_min := 0.1; sMin_max := 0.4; sMaj_min := 0.0; sMaj_max := 999.0;
     seedTimeMin := -25.0; seedTimeMax := 25.0 |}.

(** The default configuration restricted to the barrel. *)
Definition cfg_barrel_only : Config :=
  {| saveTags := saveTags cfg_default; l1EGTag_ := l1EGTag_ cfg_default;
     ncandcut_ := ncandcut_ cfg_default; trkPtCut := trkPtCut cfg_default;
     trkdRCut := trkdRCut cfg_default; maxTrkCut := maxTrkCut cfg_default;
     EBOnly := true;
     sMin_min := sMin_min cfg_default; sMin_max := sMin_max cfg_default;
     sMaj_min := sMaj_min cfg_default; sMaj_max := sMaj_max cfg_default;
     seedTimeMin := seedTimeMin cfg_default; seedTimeMax := seedTimeMax cfg_default |}.

(** *** Vocabulary of the properties *)

(** The value is a number, and it lies in the window from [lo] to [hi]. *)
Definition in_window (lo : Q) (x : Double.t) (hi : Q) : Prop :=
  match x with
  | Double.Num q => (lo <= q /\ q <= hi)%Q
  | Double.NaN => False
  end.

Section Vocabulary.
Context `{Tools}.
Variable cfg : Config.

(** The cuts in the order of the source text. *)
Definition cut_order : list Cut := [EtaCut; SMinCut; SMajCut; SeedTimeCut; TrackVetoCut].

(** The rechit collection used for a candidate, the second moments of its
    seed cluster, and the rechit of the crystal of largest energy of the
    seed cluster, if the collection has one. *)
Definition rechits_of (ev : Event) (ref : Ref) : EcalRecHitCollection :=
  if Double.lt (Double.abs (eta ref)) 1.479 then rechitsEB_ ev else rechitsEE_ ev.

Definition moments_of (ev : Event) (ref : Ref) : Cluster2ndMoments :=
  cluster2ndMoments (seed (superCluster ref)) (rechits_of ev ref).

Definition seed_rechit (ev : Event) (ref : Ref) : option EcalRecHit :=
  find (rechits_of ev ref) (getMaximum (seed (superCluster ref)) (rechits_of ev ref)).1.

(** The four-momentum built from a track. *)
Definition trkP4 (it : Track) : LorentzVector :=
  {| Px := px it; Py := py it; Pz := pz it; E := p it |}.

(** The tracks with [pt >= trkPtCut] whose Delta-R distance to the
    candidate is below [trkdRCut]. *)
Definition nearby_tracks (ref : Ref) (trks : list Track) : list Track :=
  List.filter
    (fun it => Double.ge (pt it) (trkPtCut cfg)
               && Double.lt (DeltaR (trkP4 it) (p4 ref)) (trkdRCut cfg))
    trks.

(** The condition under which each cut skips the candidate; the timing cut
    has none when the seed crystal has no rechit. *)
Definition skips_at (ev : Event) (ref : Ref) (c : Cut) : option bool :=
  match c with
  | EtaCut => Some (EBOnly cfg && Double.ge (Double.abs (eta ref)) 1.479)
  | SMinCut =>
      Some (Double.lt (sMin (moments_of ev ref)) (sMin_min cfg)
            || Double.gt (sMin (moments_of ev ref)) (sMin_max cfg))
  | SMajCut =>
      Some (Double.lt (sMaj (moments_of ev ref)) (sMaj_min cfg)
            || Double.gt (sMaj (moments_of ev ref)) (sMaj_max cfg))
  | SeedTimeCut =>
      (fun seedRH => Double.lt (time seedRH) (seedTimeMin cfg)
                     || Double.gt (time seedRH) (seedTimeMax cfg)) <$> seed_rechit ev ref
  | TrackVetoCut => Some (count_tracks cfg ref (tracks ev) 0 >? maxTrkCut cfg)
  end.

(** Applying cuts in a given order: each cut is evaluated on its condition
    and recorded; the first one that skips the candidate ends the
    evaluation, and a candidate that no cut skips has passed. *)
Fixpoint apply_in_order (cuts : list Cut) (condition : Cut -> option bool) : W Verdict :=
  match cuts with
  | [] => Some (Passed, [])
  | c :: later =>
      match condition c with
      | None => None
      | Some true => Some (Skipped, [{| cut := c; skips := true |}])
      | Some false =>
          match apply_in_order later condition with
          | Some (v, log) => Some (v, {| cut := c; skips := false |} :: log)
          | None => None
          end
      end
  end.

(** The candidate passes all cuts: no cut's condition skips it. *)
Definition passes_all_cuts (ev : Event) (ref : Ref) : bool :=
  forallb (fun c => bool_decide (skips_at ev ref c = Some false)) cut_order.


(** The references added to a filter product, with their types. *)
Definition as_clusters (refs : list Ref) : list (TriggerObjectType * Ref) :=
  map (fun ref => (TriggerCluster, ref)) refs.

End Vocabulary.

(** *** Concrete events used in the examples *)

(** Stand-ins for the reconstruction tools, with the same interface: the
    moments are fixed, the maximum is the first hit of the cluster, and the
    distance is taken between the directions in the transverse plane. *)
Definition example_tools : Tools :=
  {| cluster2ndMoments := fun _ _ => {| sMaj := 1.2; sMin := 0.25; alpha := 0 |};
     getMaximum := fun cluster _ =>
       match hitsAndFractions cluster with
       | hit :: _ => hit
       | [] => (0, 0%Q)
       end;
     DeltaR := fun a b =>
       (Qabs (Px a / E a - Px b / E b) + Qabs (Py a / E a - Py b / E b))%Q |}.

Definition example_candidate (eta0 : Q) (crystal : DetId) : RecoEcalCandidate :=
  {| eta := eta0;
     p4 := {| Px := 24; Py := 0; Pz := 10; E := 26 |};
     superCluster := {| seed := {| hitsAndFractions := [(crystal, 1%Q)] |} |} |}.

Definition barrel_candidate : RecoEcalCandidate := example_candidate 0.4 838904321.
Definition endcap_candidate : RecoEcalCandidate := example_candidate 2.0 872415400.
Definition late_candidate : RecoEcalCandidate := example_candidate (-1.1) 838904999.

Definition no_product : TriggerFilterObjectWithRefs :=
  {| collectionTags := []; photons := [] |}.

(** The log of a candidate that passes all cuts. *)
Definition all_passed : list Applied :=
  map (fun c => {| cut := c; skips := false |})
      [EtaCut; SMinCut; SMajCut; SeedTimeCut; TrackVetoCut].

(** An event whose previous filter stored its candidates as photons, with
    one track far from the candidates and one soft track close to them. *)
Definition example_event : Event :=
  {| PrevFilterOutput :=
       {| collectionTags := ["hltL1IsoRecoEcalCandidate"];
          photons := [(TriggerPhoton, barrel_candidate); (TriggerPhoton, late_candidate);
                      (TriggerPhoton, endcap_candidate)] |};
     tracks := [ {| pt := 12; px := -12; py := 0; pz := 5; p := 13 |};
                 {| pt := 1.5; px := 1.5; py := 0; pz := 0; p := 1.5 |} ];
     rechitsEB_ := [ {| detid := 838904321; time := 1.3 |};
                     {| detid := 838904999; time := 31.0 |} ];
     rechitsEE_ := [ {| detid := 872415400; time := -4.0 |} ] |}.


(** The example event with a time that is not a number at the seed
    crystal of the barrel candidate. *)
Definition nan_time_event : Event :=
  {| PrevFilterOutput := PrevFilterOutput example_event;
     tracks := tracks example_event;
     rechitsEB_ := [ {| detid := 838904321; time := Double.NaN |};
                     {| detid := 838904999; time := 31.0 |} ];
     rechitsEE_ := rechitsEE_ example_event |}.

(** The same event with a hard track next to the candidates. *)
Definition crowded_event : Event :=
  {| PrevFilterOutput := PrevFilterOutput example_event;
     tracks := {| pt := 24; px := 24; py := 0; pz := 7; p := 25 |} :: tracks example_event;
     rechitsEB_ := rechitsEB_ example_event;
     rechitsEE_ := rechitsEE_ example_event |}.

End HLTDisplacedEgammaFilter.

(* --------------------------------------------------------------------- *)
(** ** The script that regenerates the HLT tables                          *)
(* --------------------------------------------------------------------- *)

Module TablesScript.

(** What the script does that is visible from outside: it sources files
    and calls functions. *)
Inductive Action :=
| Sourced (file : string)
| Called (function : string) (arguments : list string).

(** The shell: its variables and the actions performed so far. *)
Record Shell := { variables : gmap string string; performed : list Action }.

Definition Sh (A : Type) : Type := Shell -> A * Shell.

#[export] Instance Sh_ret : MRet Sh := fun A a sh => (a, sh).
#[export] Instance Sh_bind : MBind Sh := fun A B f m sh =>
  let '(a, sh') := m sh in f a sh'.

(** [NAME="value"] *)
Definition assign (name value : string) : Sh unit := fun sh =>
  (tt, {| variables := <[name := value]> (variables sh); performed := performed sh |}).

(** ["$NAME"]: inside double quotes the expansion is one word, empty
    when the variable is unset. *)
Definition expand (name : string) : Sh string := fun sh =>
  (default EmptyString (variables sh !! name), sh).

(** The sourced file is not part of this repository part.  It runs in
    the shell of the script, so it may change the variables. *)
Class SourcedFiles := { run_file : string -> gmap string string -> gmap string string }.

Section Code.
Context `{SourcedFiles}.

(** [source file] *)
Definition source (file : string) : Sh unit := fun sh =>
  (tt, {| variables := run_file file (variables sh);
          performed := performed sh ++ [Sourced file] |}).

(** [function arg1 ... argn] *)
Definition call (function : string) (arguments : list string) : Sh unit := fun sh =>
  (tt, {| variables := variables sh;
          performed := performed sh ++ [Called function arguments] |}).

Definition script : Sh unit :=
  assign "MASTER" "/dev/CMSSW_10_1_0/HLT";;
  assign "TARGET" "/online/collisions/2018/2e34/v3.6/HLT";;
  assign "TABLES" "online_grun";;
  source "subtables.sh";;
  MASTER ← expand "MASTER";
  TARGET ← expand "TARGET";
  TABLES ← expand "TABLES";
  call "createSubtables" ["v3/run3"; MASTER; TARGET; TABLES].

End Code.

(** The shell in which the script starts. *)
Definition started (env : gmap string string) : Shell :=
  {| variables := env; performed := [] |}.

(** The variables as the three assignments of the script leave them. *)
Definition assigned (env : gmap string string) : gmap string string :=
  <["TABLES" := "online_grun"]>
    (<["TARGET" := "/online/collisions/2018/2e34/v3.6/HLT"]>
       (<["MASTER" := "/dev/CMSSW_10_1_0/HLT"]> env)).

(** A sourced file that only defines functions: it leaves the variables
    as they are. *)
Definition defines_functions_only : SourcedFiles := {| run_file := fun _ vars => vars |}.

End TablesScript.

(* --------------------------------------------------------------------- *)
(** ** Further vocabulary for AlCaRecoTriggerBitsRcdUpdate                 *)
(* --------------------------------------------------------------------- *)

Module AlCaRecoScenarios.
Import AlCaRecoTriggerBitsRcdUpdate.

(** A host in which the [PoolDBOutputService] is not available. *)
Definition host_without_database : Host :=
  {| compose := join_paths; poolDbService_isAvailable := false |}.

(** The configuration [cfg] with another [lastRunIOV]. *)
Definition with_lastRunIOV (last : Z) (cfg : Config) : Config :=
  {| firstRunIOV_ := firstRunIOV_ cfg; lastRunIOV_ := last;
     startEmpty_ := startEmpty_ cfg; listNamesRemove_ := listNamesRemove_ cfg;
     triggerListsAdd_ := triggerListsAdd_ cfg; alcarecoReplace_ := alcarecoReplace_ cfg |}.

(** A configuration that gives the list [name] the paths [paths]: with
    [remove_first] it first removes the list of that name. *)
Definition cfg_set_paths (remove_first : bool) (name : string) (paths : list string) : Config :=
  {| firstRunIOV_ := 1; lastRunIOV_ := -1; startEmpty_ := false;
     listNamesRemove_ := if remove_first then [name] else [];
     triggerListsAdd_ := [ {| listName := name; hltPaths := paths |} ];
     alcarecoReplace_ := [] |}.

(** Starts from an empty map and yet asks for a removal. *)
Definition cfg_empty_remove : Config :=
  {| firstRunIOV_ := 1; lastRunIOV_ := -1; startEmpty_ := true;
     listNamesRemove_ := ["TkAlMinBias"]; triggerListsAdd_ := [];
     alcarecoReplace_ := [] |}.

(** Which of the two outcomes a computation had, and with what. *)
Definition outcome_of {A} (r : Outcome A * Store) : Outcome A := r.1.

(** A computation that leaves a component of the store as it was,
    however it ends. *)
Definition preserves {A B} (field : Store -> B) (c : M A) : Prop :=
  forall s, field (c s).2 = field s.

(** Two runs that end the same way and differ at most in what they
    logged. *)
Definition same_but_messages {A} (r r' : Outcome A * Store) : Prop :=
  r.1 = r'.1
  /\ nEventCalls_ r.2 = nEventCalls_ r'.2
  /\ bitsToWrite r.2 = bitsToWrite r'.2
  /\ database r.2 = database r'.2.

(** Two trigger lists of the same name, and a list whose name is in
    [old_bits] already. *)
Definition zero_bias : TriggerListPSet :=
  {| listName := "SiStripCalZeroBias"; hltPaths := ["HLT_ZeroBias_v*"] |}.
Definition zero_bias_again : TriggerListPSet :=
  {| listName := "SiStripCalZeroBias"; hltPaths := ["HLT_Random_v*"] |}.
Definition min_bias : TriggerListPSet :=
  {| listName := "TkAlMinBias"; hltPaths := ["HLT_L1Tech_BSC_minBias_v*"] |}.

End AlCaRecoScenarios.

(* --------------------------------------------------------------------- *)
(** ** Further vocabulary for HLTDisplacedEgammaFilter                     *)
(* --------------------------------------------------------------------- *)

Module FilterScenarios.
Import HLTDisplacedEgammaFilter.

(** The event [ev] with other tracks, with another endcap rechit
    collection, and with other objects stored by the previous filter. *)
Definition with_tracks (trks : list Track) (ev : Event) : Event :=
  {| PrevFilterOutput := PrevFilterOutput ev; tracks := trks;
     rechitsEB_ := rechitsEB_ ev; rechitsEE_ := rechitsEE_ ev |}.

Definition with_rechitsEE (rechits : EcalRecHitCollection) (ev : Event) : Event :=
  {| PrevFilterOutput := PrevFilterOutput ev; tracks := tracks ev;
     rechitsEB_ := rechitsEB_ ev; rechitsEE_ := rechits |}.

Definition with_objects (objects : list (TriggerObjectType * Ref)) (ev : Event) : Event :=
  {| PrevFilterOutput := {| collectionTags := collectionTags (PrevFilterOutput ev);
                            photons := objects |};
     tracks := tracks ev; rechitsEB_ := rechitsEB_ ev; rechitsEE_ := rechitsEE_ ev |}.

(** The configuration [cfg] with another [ncandcut]. *)
Definition with_ncandcut (ncandcut : Z) (cfg : Config) : Config :=
  {| saveTags := saveTags cfg; l1EGTag_ := l1EGTag_ cfg; ncandcut_ := ncandcut;
     trkPtCut := trkPtCut cfg; trkdRCut := trkdRCut cfg; maxTrkCut := maxTrkCut cfg;
     EBOnly := EBOnly cfg;
     sMin_min := sMin_min cfg; sMin_max := sMin_max cfg;
     sMaj_min := sMaj_min cfg; sMaj_max := sMaj_max cfg;
     seedTimeMin := seedTimeMin cfg; seedTimeMax := seedTimeMax cfg |}.

(** The configuration [cfg] with another [maxTrackCut]. *)
Definition with_maxTrkCut (maxTrk : Z) (cfg : Config) : Config :=
  {| saveTags := saveTags cfg; l1EGTag_ := l1EGTag_ cfg; ncandcut_ := ncandcut_ cfg;
     trkPtCut := trkPtCut cfg; trkdRCut := trkdRCut cfg; maxTrkCut := maxTrk;
     EBOnly := EBOnly cfg;
     sMin_min := sMin_min cfg; sMin_max := sMin_max cfg;
     sMaj_min := sMaj_min cfg; sMaj_max := sMaj_max cfg;
     seedTimeMin := seedTimeMin cfg; seedTimeMax := seedTimeMax cfg |}.

(** One of the three windows of the configuration is empty. *)
Definition some_window_is_empty (cfg : Config) : Prop :=
  (sMin_max cfg < sMin_min cfg)%Q
  \/ (sMaj_max cfg < sMaj_min cfg)%Q
  \/ (seedTimeMax cfg < seedTimeMin cfg)%Q.

(** The moments of the candidate's seed cluster, and the time of its seed
    rechit if it has one, are numbers. *)
Definition moments_and_time_are_numbers `{Tools} (ev : Event) (ref : Ref) : Prop :=
  sMin (moments_of ev ref) <> Double.NaN
  /\ sMaj (moments_of ev ref) <> Double.NaN
  /\ (forall seedRH, seed_rechit ev ref = Some seedRH -> time seedRH <> Double.NaN).

(** The candidate survives the eta and the shape cuts, and the crystal
    returned by [getMaximum] has no rechit in the collection used: the
    loop body then dereferences [end()]. *)
Definition dereferences_end `{Tools} (cfg : Config) (ev : Event) (ref : Ref) : Prop :=
  skips_at cfg ev ref EtaCut = Some false
  /\ skips_at cfg ev ref SMinCut = Some false
  /\ skips_at cfg ev ref SMajCut = Some false
  /\ seed_rechit ev ref = None.

(** A soft track next to the candidates, and a candidate whose seed
    crystal has no rechit. *)
Definition soft_track : Track := {| pt := 1.5; px := 1.5; py := 0; pz := 0; p := 1.5 |}.
Definition hard_track : Track := {| pt := 24; px := 24; py := 0; pz := 7; p := 25 |}.
Definition far_track : Track := {| pt := 12; px := -12; py := 0; pz := 5; p := 13 |}.

Definition orphan_candidate : RecoEcalCandidate := example_candidate 0.9 838900000.

(** A configuration whose timing window is empty. *)
Definition cfg_empty_window : Config :=
  {| saveTags := saveTags cfg_default; l1EGTag_ := l1EGTag_ cfg_default;
     ncandcut_ := ncandcut_ cfg_default; trkPtCut := trkPtCut cfg_default;
     trkdRCut := trkdRCut cfg_default; maxTrkCut := maxTrkCut cfg_default;
     EBOnly := EBOnly cfg_default;
     sMin_min := sMin_min cfg_default; sMin_max := sMin_max cfg_default;
     sMaj_min := sMaj_min cfg_default; sMaj_max := sMaj_max cfg_default;
     seedTimeMin := 25.0; seedTimeMax := -25.0 |}.

(** The result of a run that has one; the examples use it for runs that
    are evaluated beside them. *)
Definition result_of (run : option Result) : Result :=
  default {| accept := false; product := no_product; cuts_evaluated := [] |} run.

(** The results for the example event with the default configuration and
    with [maxTrackCut = -1], and an event with a candidate whose seed
    crystal has no rechit. *)
Definition example_result : Result :=
  result_of (@hltFilter example_tools cfg_default example_event no_product).

Definition vetoed_result : Result :=
  result_of (@hltFilter example_tools (with_maxTrkCut (-1) cfg_default)
               example_event no_product).

(** A candidate whose eta is not a number, with the seed crystal of the
    endcap candidate, alone in the example event. *)
Definition nan_eta_candidate : RecoEcalCandidate :=
  {| eta := Double.NaN; p4 := p4 endcap_candidate;
     superCluster := superCluster endcap_candidate |}.

Definition nan_eta_event : Event :=
  with_objects [(TriggerPhoton, nan_eta_candidate)] example_event.

Definition orphan_event : Event :=
  with_objects [(TriggerPhoton, barrel_candidate); (TriggerPhoton, orphan_candidate)]
    example_event.

End FilterScenarios.

(* --------------------------------------------------------------------- *)
(** ** HLTDisplacedEgammaFilter: constructor and fillDescriptions          *)
(* --------------------------------------------------------------------- *)

Module FilterConstruction.
Import AlCaRecoTriggerBitsRcdUpdate HLTDisplacedEgammaFilter.

(** [edm::ParameterSet], as far as the constructor uses it: named values
    of type [int], [double], [bool] or [edm::InputTag] (an input tag is
    kept in its encoded form, label and instance joined by a colon). *)
Inductive ParameterValue :=
| PInt (z : Z)
| PDouble (x : Q)
| PBool (b : bool)
| PInputTag (tag : InputTag).

Abbreviation ParameterSet := (gmap string ParameterValue).

(** The exception of [getParameter] for a parameter that is absent or of
    another type. *)
Definition missing_parameter (name : string) : Exception :=
  cms_Exception "Configuration" ("MissingParameter: " +:+ name).

#[export] Instance Outcome_ret : MRet Outcome := fun A a => Returns a.
#[export] Instance Outcome_bind : MBind Outcome := fun A B f c =>
  match c with
  | Returns a => f a
  | Throws e => Throws e
  end.

(** [iConfig.getParameter<T>(name)] for the four types. *)
Definition getParameter_int (iConfig : ParameterSet) (name : string) : Outcome Z :=
  match iConfig !! name with
  | Some (PInt z) => Returns z
  | _ => Throws (missing_parameter name)
  end.

Definition getParameter_double (iConfig : ParameterSet) (name : string) : Outcome Q :=
  match iConfig !! name with
  | Some (PDouble x) => Returns x
  | _ => Throws (missing_parameter name)
  end.

Definition getParameter_bool (iConfig : ParameterSet) (name : string) : Outcome bool :=
  match iConfig !! name with
  | Some (PBool b) => Returns b
  | _ => Throws (missing_parameter name)
  end.

Definition getParameter_InputTag (iConfig : ParameterSet) (name : string) : Outcome InputTag :=
  match iConfig !! name with
  | Some (PInputTag tag) => Returns tag
  | _ => Throws (missing_parameter name)
  end.

(** The data members of the filter: the four tags that select the event
    products, and the ones [hltFilter] computes with. *)
Record DataMembers := {
  inputTag_ : InputTag;
  inputTrk : InputTag;
  rechitsEB : InputTag;
  rechitsEE : InputTag;
  cuts : Config
}.

(** [HLTDisplacedEgammaFilter(iConfig)].  [saveTags0] is what the
    constructor of the base class, [HLTFilter(iConfig)], has stored for
    [saveTags()].  The [consumes] calls at the end register the four
    products with the framework and set no data member modelled here. *)
Definition HLTDisplacedEgammaFilter (saveTags0 : bool) (iConfig : ParameterSet)
    : Outcome DataMembers :=
  inputTag_ ← getParameter_InputTag iConfig "inputTag";
  ncandcut_ ← getParameter_int iConfig "ncandcut";
  l1EGTag_ ← getParameter_InputTag iConfig "l1EGCand";
  inputTrk ← getParameter_InputTag iConfig "inputTrack";
  trkPtCut ← getParameter_double iConfig "trackPtCut";
  trkdRCut ← getParameter_double iConfig "trackdRCut";
  maxTrkCut ← getParameter_int iConfig "maxTrackCut";
  rechitsEB ← getParameter_InputTag iConfig "RecHitsEB";
  rechitsEE ← getParameter_InputTag iConfig "RecHitsEE";
  EBOnly ← getParameter_bool iConfig "EBOnly";
  sMin_min ← getParameter_double iConfig "sMin_min";
  sMin_max ← getParameter_double iConfig "sMin_max";
  sMaj_min ← getParameter_double iConfig "sMaj_min";
  sMaj_max ← getParameter_double iConfig "sMaj_max";
  seedTimeMin ← getParameter_double iConfig "seedTimeMin";
  seedTimeMax ← getParameter_double iConfig "seedTimeMax";
  mret {| inputTag_ := inputTag_; inputTrk := inputTrk;
          rechitsEB := rechitsEB; rechitsEE := rechitsEE;
          cuts := {| saveTags := saveTags0; l1EGTag_ := l1EGTag_; ncandcut_ := ncandcut_;
                     trkPtCut := trkPtCut; trkdRCut := trkdRCut; maxTrkCut := maxTrkCut;
                     EBOnly := EBOnly;
                     sMin_min := sMin_min; sMin_max := sMin_max;
                     sMaj_min := sMaj_min; sMaj_max := sMaj_max;
                     seedTimeMin := seedTimeMin; seedTimeMax := seedTimeMax |} |}.

(** [fillDescriptions]: the parameters it adds to the description after
    those of the base class ([makeHLTFilterDescription]), each with its
    default value, in the order of the source. *)
Definition fillDescriptions : list (string * ParameterValue) :=
  [ ("inputTag", PInputTag "hltEGRegionalL1SingleEG22");
    ("l1EGCand", PInputTag "hltL1IsoRecoEcalCandidate");
    ("RecHitsEB", PInputTag "hltEcalRecHit:EcalRecHitsEB");
    ("RecHitsEE", PInputTag "hltEcalRecHit:EcalRecHitsEE");
    ("inputTrack", PInputTag "hltL1SeededEgammaRegionalCTFFinalFitWithMaterial");
    ("ncandcut", PInt 1);
    ("EBOnly", PBool false);
    ("sMin_min", PDouble 0.1);
    ("sMin_max", PDouble 0.4);
    ("sMaj_min", PDouble 0.0);
    ("sMaj_max", PDouble 999.0);
    ("seedTimeMin", PDouble (-25.0));
    ("seedTimeMax", PDouble 25.0);
    ("maxTrackCut", PInt 0);
    ("trackPtCut", PDouble 3.0);
    ("trackdRCut", PDouble 0.5) ].

(** The label under which the description is registered. *)
Definition description_label : string := "hltDisplacedEgammaFilter".

(** *** Vocabulary of the properties *)

(** Two values of the same type. *)
Definition same_type (v w : ParameterValue) : Prop :=
  match v, w with
  | PInt _, PInt _ | PDouble _, PDouble _ | PBool _, PBool _
  | PInputTag _, PInputTag _ => True
  | _, _ => False
  end.

(** The parameter set has every described parameter, with the type of
    its default value. *)
Definition conforms (iConfig : ParameterSet) (description : list (string * ParameterValue))
    : Prop :=
  forall name default,
    (name, default) ∈ description ->
    exists v, iConfig !! name = Some v /\ same_type v default.

(** The parameter set that holds the default values. *)
Definition defaults : ParameterSet := list_to_map fillDescriptions.

End FilterConstruction.

(* ===================================================================== *)
(** * Part II.  Properties                                                *)
(* ===================================================================== *)

(* --------------------------------------------------------------------- *)
(** ** AlCaRecoTriggerBitsRcdUpdate                                        *)
(* --------------------------------------------------------------------- *)

Section UpdateProperties.
Import MachineInt AlCaRecoTriggerBitsRcdUpdate.
Context `{Host}.

Implicit Types (s : Store) (m : TriggerMap) (keys : list string).

(** *** The store *)

Lemma set_bitsToWrite_same s : set_bitsToWrite (bitsToWrite s) s = s.
Proof. by destruct s. Qed.

Lemma set_bitsToWrite_twice m m' s :
  set_bitsToWrite m (set_bitsToWrite m' s) = set_bitsToWrite m s.
Proof. done. Qed.

(** *** Sequencing *)

Lemma bind_returns {A B} (c : M A) (f : A -> M B) s a s' :
  c s = (Returns a, s') -> (c ≫= f) s = f a s'.
Proof. intros Hc. unfold mbind, M_bind. by rewrite Hc. Qed.

Lemma bind_throws {A B} (c : M A) (f : A -> M B) s e s' :
  c s = (Throws e, s') -> (c ≫= f) s = (Throws e, s').
Proof. intros Hc. unfold mbind, M_bind. by rewrite Hc. Qed.

(** *** Unfolding the loops by one iteration *)

Lemma removeKeysFromMap_cons k keys s :
  removeKeysFromMap (k :: keys) s =
    if decide (is_Some (bitsToWrite s !! k))
    then removeKeysFromMap keys (set_bitsToWrite (delete k (bitsToWrite s)) s)
    else (Throws (cannot_remove k), s).
Proof. cbn. unfold mbind, M_bind, gets. by case_decide. Qed.

Lemma replaceKeyPairs_cons old new pairs s :
  replaceKeyPairs ((old, new) :: pairs) s =
    match bitsToWrite s !! old with
    | Some v => replaceKeyPairs pairs (set_bitsToWrite (<[new := v]> (delete old (bitsToWrite s))) s)
    | None => (Returns false, add_message (cannot_replace old new) s)
    end.
Proof. cbn. unfold mbind, M_bind, gets. by destruct (bitsToWrite s !! old). Qed.

Lemma addTriggerLists_cons iSet lists s :
  addTriggerLists (iSet :: lists) s =
    if decide (is_Some (bitsToWrite s !! listName iSet))
    then (Throws (already_in_map (listName iSet)), s)
    else addTriggerLists lists
           (set_bitsToWrite (<[listName iSet := compose (hltPaths iSet)]> (bitsToWrite s)) s).
Proof. cbn. unfold mbind, M_bind, gets. by case_decide. Qed.

(** *** Removal *)

Lemma erase_keys_cons k keys m : erase_keys (k :: keys) m = erase_keys keys (delete k m).
Proof. done. Qed.

Lemma lookup_erase_keys keys m k :
  erase_keys keys m !! k = if decide (k ∈ keys) then None else m !! k.
Proof.
  revert m. induction keys as [|k' keys IH]; intros m.
  - case_decide; [set_solver | done].
  - rewrite erase_keys_cons, IH.
    destruct (decide (k = k')) as [->|Hne].
    + rewrite lookup_delete_eq. repeat case_decide; set_solver.
    + rewrite lookup_delete_ne by done. repeat case_decide; set_solver.
Qed.

Lemma removeKeysFromMap_returns keys s :
  NoDup keys ->
  (forall k, k ∈ keys -> is_Some (bitsToWrite s !! k)) ->
  removeKeysFromMap keys s
    = (Returns true, set_bitsToWrite (erase_keys keys (bitsToWrite s)) s).
Proof.
  revert s. induction keys as [|k keys IH]; intros s Hnd Hin.
  - cbn. by rewrite set_bitsToWrite_same.
  - apply NoDup_cons in Hnd as [Hk Hnd].
    rewrite removeKeysFromMap_cons, decide_True by (apply Hin; set_solver).
    rewrite IH; [done | done |].
    intros k' Hk'. cbn. rewrite lookup_delete_ne by set_solver. apply Hin. set_solver.
Qed.

Lemma removeKeysFromMap_inv_returns keys s b s' :
  removeKeysFromMap keys s = (Returns b, s') ->
  b = true /\ NoDup keys /\ (forall k, k ∈ keys -> is_Some (bitsToWrite s !! k)).
Proof.
  revert s. induction keys as [|k keys IH]; intros s.
  - cbn. intros [= <- <-]. split_and!; [done | constructor | set_solver].
  - rewrite removeKeysFromMap_cons. case_decide as Hk; [|done].
    intros (-> & Hnd & Hin)%IH. cbn in Hin.
    assert (k ∉ keys) as Hnotin.
    { intros [v Hv]%Hin. by rewrite lookup_delete_eq in Hv. }
    split_and!; [done | by constructor |].
    intros k' [->|Hk']%elem_of_cons; [done |].
    destruct (Hin k' Hk') as [v Hv]. apply lookup_delete_Some in Hv as [_ Hv]. by eexists.
Qed.

Lemma removeKeysFromMap_inv_throws keys s e s' :
  removeKeysFromMap keys s = (Throws e, s') ->
  exists pre k post,
    keys = pre ++ k :: post
    /\ NoDup pre
    /\ (forall k', k' ∈ pre -> is_Some (bitsToWrite s !! k'))
    /\ (bitsToWrite s !! k = None \/ k ∈ pre)
    /\ e = cannot_remove k
    /\ s' = set_bitsToWrite (erase_keys pre (bitsToWrite s)) s.
Proof.
  revert s. induction keys as [|k keys IH]; intros s.
  - done.
  - rewrite removeKeysFromMap_cons. case_decide as Hk.
    + intros (pre & k0 & post & -> & Hnd & Hin & Hk0 & -> & ->)%IH. cbn in Hin, Hk0.
      exists (k :: pre), k0, post.
      assert (k ∉ pre) as Hnotin.
      { intros [v Hv]%Hin. by rewrite lookup_delete_eq in Hv. }
      split_and!; [done | by constructor | | | done | done].
      * intros k' [->|Hk']%elem_of_cons; [done |].
        destruct (Hin k' Hk') as [v Hv]. apply lookup_delete_Some in Hv as [_ Hv]. by eexists.
      * destruct Hk0 as [Hk0|Hk0]; [|set_solver].
        apply lookup_delete_None in Hk0 as [->|Hk0]; [set_solver | by left].
    + intros [= <- <-]. exists [], k, keys.
      split_and!; [done | constructor | set_solver | | done | ].
      * left. by apply eq_None_not_Some.
      * cbn. by rewrite set_bitsToWrite_same.
Qed.

(** *** Insertion *)

Lemma add_lists_cons iSet lists m :
  add_lists (iSet :: lists) m = add_lists lists (<[listName iSet := compose (hltPaths iSet)]> m).
Proof. done. Qed.

Lemma addTriggerLists_returns lists s :
  NoDup (map listName lists) ->
  (forall l, l ∈ map listName lists -> bitsToWrite s !! l = None) ->
  addTriggerLists lists s
    = (Returns true, set_bitsToWrite (add_lists lists (bitsToWrite s)) s).
Proof.
  revert s. induction lists as [|iSet lists IH]; intros s Hnd Hfresh.
  - cbn. by rewrite set_bitsToWrite_same.
  - cbn [map] in Hnd, Hfresh. apply NoDup_cons in Hnd as [Hl Hnd].
    rewrite addTriggerLists_cons, decide_False.
    2:{ rewrite (Hfresh (listName iSet)) by set_solver. by intros [? ?]. }
    rewrite IH; [done | done |].
    intros l Hin. cbn. rewrite lookup_insert_ne by set_solver. apply Hfresh. set_solver.
Qed.

(** *** Renaming *)

Lemma replaceKeysFromMap_cons iSet pairs s :
  replaceKeysFromMap (iSet :: pairs) s =
    if decide (is_Some (bitsToWrite s !! oldKey iSet))
    then replaceKeysFromMap pairs
           (set_bitsToWrite (rename_key (oldKey iSet) (newKey iSet) (bitsToWrite s)) s)
    else (Returns false, add_message (cannot_replace (oldKey iSet) (newKey iSet)) s).
Proof.
  unfold replaceKeysFromMap. cbn [map]. rewrite replaceKeyPairs_cons. unfold rename_key.
  case_decide as Hk.
  - by destruct Hk as [v ->].
  - apply eq_None_not_Some in Hk. by rewrite Hk.
Qed.

(** [replaceKeysFromMap] never throws: it returns [true] when every pair
    finds its old key, and otherwise [false] after one warning. *)
Lemma replaceKeysFromMap_result pairs s :
  replaceKeysFromMap pairs s =
    match first_missing pairs (bitsToWrite s) with
    | None => (Returns true, set_bitsToWrite (rename_keys pairs (bitsToWrite s)) s)
    | Some iSet =>
        (Returns false,
         add_message (cannot_replace (oldKey iSet) (newKey iSet))
           (set_bitsToWrite (rename_keys pairs (bitsToWrite s)) s))
    end.
Proof.
  revert s. induction pairs as [|iSet pairs IH]; intros s.
  - cbn. by rewrite set_bitsToWrite_same.
  - rewrite replaceKeysFromMap_cons. cbn [first_missing rename_keys].
    case_decide as Hk.
    + rewrite IH. cbn [bitsToWrite set_bitsToWrite]. by destruct first_missing.
    + by rewrite set_bitsToWrite_same.
Qed.


(** *** Writing and [analyze] *)

Lemma writeBitsToDB_available cfg s :
  poolDbService_isAvailable = true ->
  writeBitsToDB cfg s
    = (Returns tt,
       add_message (done_for_runs (firstRunIOV_ cfg) (lastRunIOV_ cfg))
         (add_write (write_of cfg (bitsToWrite s)) (add_message uploading s))).
Proof. intros Hav. unfold writeBitsToDB. rewrite Hav. done. Qed.

Lemma analyze_first_call cfg iSetup s :
  nEventCalls_ s = 0 ->
  analyze cfg iSetup s =
    (removeKeysFromMap (listNamesRemove_ cfg);;
     addTriggerLists (triggerListsAdd_ cfg);;
     replaceKeysFromMap (alcarecoReplace_ cfg);;
     writeBitsToDB cfg)
      (set_bitsToWrite (initial_bits cfg iSetup) (set_nEventCalls 1 s)).
Proof. intros Hn. unfold analyze, mbind, M_bind, gets, modify. by rewrite Hn. Qed.

Lemma analyze_later_call cfg iSetup s :
  0 < nEventCalls_ s ->
  analyze cfg iSetup s =
    (Returns tt,
     add_message write_only_once (set_nEventCalls (wrap_unsigned (nEventCalls_ s + 1)) s)).
Proof.
  intros Hn. unfold analyze, mbind, M_bind, gets, modify.
  by rewrite (proj2 (Z.ltb_lt _ _) Hn).
Qed.

(** The first call with a fitting configuration and the database service
    at hand, step by step. *)
Lemma analyze_first_call_result cfg iSetup s :
  nEventCalls_ s = 0 ->
  poolDbService_isAvailable = true ->
  removal_and_insertion_fit cfg (initial_bits cfg iSetup) ->
  let m2 := add_lists (triggerListsAdd_ cfg)
              (erase_keys (listNamesRemove_ cfg) (initial_bits cfg iSetup)) in
  let m3 := rename_keys (alcarecoReplace_ cfg) m2 in
  let s3 := set_bitsToWrite m3 (set_nEventCalls 1 s) in
  let s3' := match first_missing (alcarecoReplace_ cfg) m2 with
             | None => s3
             | Some iSet => add_message (cannot_replace (oldKey iSet) (newKey iSet)) s3
             end in
  analyze cfg iSetup s
    = (Returns tt,
       add_message (done_for_runs (firstRunIOV_ cfg) (lastRunIOV_ cfg))
         (add_write (write_of cfg m3) (add_message uploading s3'))).
Proof.
  intros Hn Hav (Hnd & Hin & Hnd' & Hfresh) m2 m3 s3 s3'.
  rewrite analyze_first_call by done.
  unfold mbind, M_bind.
  rewrite removeKeysFromMap_returns by done.
  rewrite addTriggerLists_returns by done.
  rewrite replaceKeysFromMap_result. cbn [bitsToWrite set_bitsToWrite].
  fold m2. fold m3. subst s3' s3.
  destruct (first_missing (alcarecoReplace_ cfg) m2);
    by rewrite writeBitsToDB_available.
Qed.

(** *** The claims about [analyze] and its helpers *)

(** C2.  On the first call of [analyze], with a configuration whose removal
    and insertion fit the map and with the database service available, the
    call returns normally and makes exactly one database write.  What is
    written is the map obtained from the initial one by, in this order,
    erasing the configured keys, inserting the configured lists with their
    merged paths, and renaming the configured key pairs. *)
Theorem analyze_removes_adds_renames_then_writes_once cfg iSetup s :
  nEventCalls_ s = 0 ->
  poolDbService_isAvailable = true ->
  removal_and_insertion_fit cfg (initial_bits cfg iSetup) ->
  exists s',
    analyze cfg iSetup s = (Returns tt, s')
    /\ database s' =
         database s ++
           [write_of cfg
              (rename_keys (alcarecoReplace_ cfg)
                 (add_lists (triggerListsAdd_ cfg)
                    (erase_keys (listNamesRemove_ cfg) (initial_bits cfg iSetup))))].
Proof.
  intros Hn Hav Hfit.
  eexists. split; [by apply analyze_first_call_result |].
  by destruct first_missing.
Qed.

(** C5, as amended.  When every listed key is in the map and no key is
    listed twice, [removeKeysFromMap] returns [true] and erases exactly the
    listed keys.  When a listed key is absent, or listed a second time, it
    throws a [BadConfig] exception at the first such key, the keys before it
    having been erased from the map.  It never returns [false].  In
    [analyze] the exception leaves the database unwritten. *)
Theorem removeKeysFromMap_erases_or_throws keys s :
  (NoDup keys /\ (forall k, k ∈ keys -> is_Some (bitsToWrite s !! k)) ->
     exists m',
       removeKeysFromMap keys s = (Returns true, set_bitsToWrite m' s)
       /\ forall k, m' !! k = if decide (k ∈ keys) then None else bitsToWrite s !! k)
  /\ (~ NoDup keys \/ (exists k, k ∈ keys /\ bitsToWrite s !! k = None) ->
       exists pre k post,
         keys = pre ++ k :: post
         /\ NoDup pre
         /\ (forall k', k' ∈ pre -> is_Some (bitsToWrite s !! k'))
         /\ (bitsToWrite s !! k = None \/ k ∈ pre)
         /\ removeKeysFromMap keys s
              = (Throws (cannot_remove k),
                 set_bitsToWrite (erase_keys pre (bitsToWrite s)) s)
         /\ category (cannot_remove k) = "BadConfig")
  /\ (forall s', removeKeysFromMap keys s <> (Returns false, s'))
  /\ (forall cfg iSetup s0 e,
        nEventCalls_ s0 = 0 ->
        listNamesRemove_ cfg = keys ->
        s = set_bitsToWrite (initial_bits cfg iSetup) (set_nEventCalls 1 s0) ->
        (removeKeysFromMap keys s).1 = Throws e ->
        (analyze cfg iSetup s0).1 = Throws e
        /\ database (analyze cfg iSetup s0).2 = database s0).
Proof.
  split_and!.
  - intros [Hnd Hin]. exists (erase_keys keys (bitsToWrite s)). split.
    + by apply removeKeysFromMap_returns.
    + intros k. apply lookup_erase_keys.
  - intros Hbad.
    destruct (removeKeysFromMap keys s) as [[b|e] s'] eqn:Hrun.
    + apply removeKeysFromMap_inv_returns in Hrun as (_ & Hnd & Hin).
      destruct Hbad as [Hdup|(k & Hk & Hnone)]; [done |].
      destruct (Hin k Hk) as [v Hv]. congruence.
    + apply removeKeysFromMap_inv_throws in Hrun
        as (pre & k & post & -> & Hnd & Hin & Hk & -> & ->).
      by exists pre, k, post.
  - intros s' Hrun. by apply removeKeysFromMap_inv_returns in Hrun as [? _].
  - intros cfg iSetup s0 e Hn Hkeys -> Hthrows.
    rewrite analyze_first_call by done. rewrite Hkeys.
    destruct (removeKeysFromMap keys _) as [[b|e'] s'] eqn:Hrun; [done |].
    cbn in Hthrows. injection Hthrows as ->.
    rewrite (bind_throws _ _ _ _ _ Hrun). split; [done |].
    apply removeKeysFromMap_inv_throws in Hrun as (pre & k & post & _ & _ & _ & _ & _ & ->).
    done.
Qed.


(** *** Repeated calls *)

Lemma after_events_succ cfg iSetup k s :
  after_events cfg iSetup (N.succ k) s
    = (analyze cfg iSetup (after_events cfg iSetup k s)).2.
Proof. unfold after_events. by rewrite N.iter_succ. Qed.

Lemma after_events_add cfg iSetup (p q : N) s :
  after_events cfg iSetup (p + q) s
    = after_events cfg iSetup p (after_events cfg iSetup q s).
Proof. unfold after_events. by rewrite N.iter_add. Qed.

(** Once the counter is positive, the calls that follow only log the
    warning, as long as the counter does not pass 2^32. *)
Lemma later_events_only_warn cfg iSetup k s :
  0 < nEventCalls_ s < UINT_MODULUS ->
  nEventCalls_ s + Z.of_N k <= UINT_MODULUS ->
  database (after_events cfg iSetup k s) = database s
  /\ bitsToWrite (after_events cfg iSetup k s) = bitsToWrite s
  /\ nEventCalls_ (after_events cfg iSetup k s)
       = wrap_unsigned (nEventCalls_ s + Z.of_N k).
Proof.
  unfold UINT_MODULUS. intros Hn. induction k as [|k IH] using N.peano_ind; intros Hk.
  - cbn. split_and!; [done | done |].
    unfold wrap_unsigned, UINT_MODULUS. rewrite Z.add_0_r, Z.mod_small; lia.
  - destruct IH as (Hdb & Hbits & Hcnt); [lia |].
    unfold wrap_unsigned, UINT_MODULUS in Hcnt. rewrite Z.mod_small in Hcnt by lia.
    rewrite after_events_succ, analyze_later_call by lia. cbn.
    split_and!; [done | done |]. rewrite Hcnt. f_equal. lia.
Qed.

(** What the helpers leave alone: the counter and the database. *)
Lemma removeKeysFromMap_frame keys s :
  exists m', (removeKeysFromMap keys s).2 = set_bitsToWrite m' s.
Proof.
  revert s. induction keys as [|k keys IH]; intros s.
  - exists (bitsToWrite s). cbn. by rewrite set_bitsToWrite_same.
  - rewrite removeKeysFromMap_cons. case_decide.
    + destruct (IH (set_bitsToWrite (delete k (bitsToWrite s)) s)) as [m' ->]. by exists m'.
    + exists (bitsToWrite s). cbn. by rewrite set_bitsToWrite_same.
Qed.

Lemma addTriggerLists_frame lists s :
  exists m', (addTriggerLists lists s).2 = set_bitsToWrite m' s.
Proof.
  revert s. induction lists as [|iSet lists IH]; intros s.
  - exists (bitsToWrite s). cbn. by rewrite set_bitsToWrite_same.
  - rewrite addTriggerLists_cons. case_decide.
    + exists (bitsToWrite s). cbn. by rewrite set_bitsToWrite_same.
    + destruct (IH (set_bitsToWrite (<[listName iSet := compose (hltPaths iSet)]>
                                       (bitsToWrite s)) s)) as [m' ->].
      by exists m'.
Qed.

(** A first call, however it ends, makes at most one write and leaves the
    counter at 1. *)
Lemma analyze_first_call_writes_at_most_once cfg iSetup s :
  nEventCalls_ s = 0 ->
  nEventCalls_ (analyze cfg iSetup s).2 = 1
  /\ exists writes,
       database (analyze cfg iSetup s).2 = database s ++ writes
       /\ (length writes <= 1)%nat.
Proof.
  intros Hn. rewrite analyze_first_call by done.
  set (s0 := set_bitsToWrite _ _).
  assert (nEventCalls_ s0 = 1 /\ database s0 = database s) as [Hn0 Hdb0] by done.
  clearbody s0.
  destruct (removeKeysFromMap_frame (listNamesRemove_ cfg) s0) as [m1 Hs1].
  destruct (removeKeysFromMap (listNamesRemove_ cfg) s0) as [[b1|e1] s1] eqn:Hrun1;
    cbn [snd] in Hs1; subst s1.
  2:{ rewrite (bind_throws _ _ _ _ _ Hrun1). cbn.
      split; [done |]. exists []. rewrite app_nil_r. split; [done | cbn; lia]. }
  rewrite (bind_returns _ _ _ _ _ Hrun1).
  destruct (addTriggerLists_frame (triggerListsAdd_ cfg) (set_bitsToWrite m1 s0)) as [m2 Hs2].
  destruct (addTriggerLists (triggerListsAdd_ cfg) _) as [[b2|e2] s2] eqn:Hrun2;
    cbn [snd] in Hs2; subst s2.
  2:{ rewrite (bind_throws _ _ _ _ _ Hrun2). cbn.
      split; [done |]. exists []. rewrite app_nil_r. split; [done | cbn; lia]. }
  rewrite (bind_returns _ _ _ _ _ Hrun2).
  unfold mbind, M_bind. rewrite replaceKeysFromMap_result.
  unfold writeBitsToDB, mbind, M_bind, modify, gets, throw.
  destruct first_missing, poolDbService_isAvailable; cbn;
    (split; [done |]); rewrite Hdb0;
    first [ by eexists [_]; split; [reflexivity | cbn; lia]
          | exists []; rewrite app_nil_r; split; [reflexivity | cbn; lia] ].
Qed.

(** The calls after a first one, as long as the counter stays within
    32 bits: each returns after logging the warning. *)
Lemma analyze_events_only_warn cfg events s :
  0 < nEventCalls_ s < UINT_MODULUS ->
  nEventCalls_ s + Z.of_nat (length events) <= UINT_MODULUS ->
  exists s',
    analyze_events cfg events s = (Returns tt, s')
    /\ database s' = database s
    /\ bitsToWrite s' = bitsToWrite s
    /\ messages s' = messages s ++ repeat write_only_once (length events).
Proof.
  unfold UINT_MODULUS. revert s. induction events as [|iSetup events IH]; intros s Hn Hlen.
  - exists s. cbn. by rewrite app_nil_r.
  - cbn [analyze_events length] in *.
    rewrite (bind_returns _ _ _ _ _ (analyze_later_call cfg iSetup s (proj1 Hn))).
    destruct events as [|iSetup' events].
    + eexists. split; [done |]. done.
    + destruct (IH (add_message write_only_once
                      (set_nEventCalls (wrap_unsigned (nEventCalls_ s + 1)) s)))
        as (s' & -> & Hdb & Hbits & Hmsg).
      * cbn. unfold wrap_unsigned, UINT_MODULUS. cbn [length] in Hlen.
        rewrite Z.mod_small; lia.
      * cbn. unfold wrap_unsigned, UINT_MODULUS. cbn [length] in Hlen.
        rewrite Z.mod_small; lia.
      * exists s'. split; [done |]. rewrite Hdb, Hbits, Hmsg. cbn.
        by rewrite <- app_assoc.
Qed.

(** Up to 2^32 calls on a freshly constructed module write at most once. *)
Lemma write_at_most_once_within_counter_range cfg events s :
  nEventCalls_ s = 0 ->
  Z.of_nat (length events) <= UINT_MODULUS ->
  exists writes,
    database (analyze_events cfg events s).2 = database s ++ writes
    /\ (length writes <= 1)%nat.
Proof.
  intros Hn Hlen. destruct events as [|iSetup events].
  - exists []. cbn. rewrite app_nil_r. split; [done | lia].
  - cbn [analyze_events length] in *.
    destruct (analyze_first_call_writes_at_most_once cfg iSetup s Hn)
      as (Hn1 & writes & Hdb & Hone).
    destruct (analyze cfg iSetup s) as [[[]|e] s1] eqn:Hrun; cbn [snd] in *.
    + rewrite (bind_returns _ _ _ _ _ Hrun).
      destruct (analyze_events_only_warn cfg events s1) as (s' & -> & Hdb' & _).
      * rewrite Hn1. unfold UINT_MODULUS. lia.
      * rewrite Hn1. lia.
      * exists writes. cbn. by rewrite Hdb'.
    + rewrite (bind_throws _ _ _ _ _ Hrun). by exists writes.
Qed.

(** A first call that writes, followed by [k] calls, with [k] below 2^32:
    the database holds the one write of the first call, and the counter
    is [1 + k] modulo 2^32. *)
Lemma first_call_then_warnings cfg iSetup s k :
  nEventCalls_ s = 0 ->
  poolDbService_isAvailable = true ->
  removal_and_insertion_fit cfg (initial_bits cfg iSetup) ->
  (Z.of_N k <? UINT_MODULUS) = true ->
  database (after_events cfg iSetup (N.succ k) s)
    = database s ++
        [write_of cfg
           (rename_keys (alcarecoReplace_ cfg)
              (add_lists (triggerListsAdd_ cfg)
                 (erase_keys (listNamesRemove_ cfg) (initial_bits cfg iSetup))))]
  /\ nEventCalls_ (after_events cfg iSetup (N.succ k) s) = wrap_unsigned (1 + Z.of_N k).
Proof.
  intros Hn Hav Hfit Hk%Z.ltb_lt. unfold UINT_MODULUS in Hk.
  rewrite <- N.add_1_r, after_events_add.
  set (s1 := after_events cfg iSetup 1 s).
  assert (s1 = (analyze cfg iSetup s).2) as Hs1 by done.
  rewrite analyze_first_call_result in Hs1 by done. cbn [snd] in Hs1.
  assert (nEventCalls_ s1 = 1) as Hn1.
  { rewrite Hs1. by destruct first_missing. }
  destruct (later_events_only_warn cfg iSetup k s1) as (Hdb & _ & Hcnt).
  { rewrite Hn1. unfold UINT_MODULUS. lia. }
  { rewrite Hn1. unfold UINT_MODULUS. lia. }
  rewrite Hdb, Hcnt, Hn1. split; [| done].
  rewrite Hs1. by destruct first_missing.
Qed.

(** The call after the counter has wrapped around writes again. *)
Lemma call_after_wraparound_writes_again cfg iSetup s k :
  nEventCalls_ s = 0 ->
  poolDbService_isAvailable = true ->
  removal_and_insertion_fit cfg (initial_bits cfg iSetup) ->
  (Z.of_N k =? UINT_MODULUS - 1) = true ->
  let w := write_of cfg
             (rename_keys (alcarecoReplace_ cfg)
                (add_lists (triggerListsAdd_ cfg)
                   (erase_keys (listNamesRemove_ cfg) (initial_bits cfg iSetup)))) in
  database (after_events cfg iSetup (N.succ (N.succ k)) s) = database s ++ [w; w].
Proof.
  intros Hn Hav Hfit Hk%Z.eqb_eq w.
  destruct (first_call_then_warnings cfg iSetup s k Hn Hav Hfit) as [Hdb Hcnt].
  { apply Z.ltb_lt. lia. }
  rewrite Hk in Hcnt. change (wrap_unsigned _) with 0 in Hcnt.
  rewrite after_events_succ.
  rewrite analyze_first_call_result by done. cbn [snd].
  destruct first_missing; cbn; by rewrite Hdb, <- app_assoc.
Qed.

End UpdateProperties.

(** *** The claims at concrete configurations *)

Section UpdateExamples.
Import MachineInt AlCaRecoTriggerBitsRcdUpdate.

Lemma cfg_write_only_fits `{Host} iSetup :
  removal_and_insertion_fit cfg_write_only (initial_bits cfg_write_only iSetup).
Proof. split_and!; cbn; [constructor | set_solver | constructor | set_solver]. Qed.

(** C9.  The call counter is an [unsigned int].  After 2^32 calls it is
    back at 0, so call number 2^32 + 1 is treated as a first call again:
    the map operations run and the database is written a second time. *)
Theorem analyze_writes_again_after_counter_wraps :
  database (@after_events host_with_database cfg_write_only ∅ 1%N constructed)
    = [write_of cfg_write_only ∅]
  /\ database (@after_events host_with_database cfg_write_only ∅ 4294967296%N constructed)
       = [write_of cfg_write_only ∅]
  /\ nEventCalls_ (@after_events host_with_database cfg_write_only ∅ 4294967296%N constructed)
       = 0
  /\ database (@after_events host_with_database cfg_write_only ∅ 4294967297%N constructed)
       = [write_of cfg_write_only ∅; write_of cfg_write_only ∅].
Proof.
  pose proof (cfg_write_only_fits (H := host_with_database) ∅) as Hfit.
  split_and!.
  - exact (proj1 (first_call_then_warnings (H := host_with_database)
             cfg_write_only ∅ constructed 0%N eq_refl eq_refl Hfit eq_refl)).
  - exact (proj1 (first_call_then_warnings (H := host_with_database)
             cfg_write_only ∅ constructed 4294967295%N eq_refl eq_refl Hfit eq_refl)).
  - exact (proj2 (first_call_then_warnings (H := host_with_database)
             cfg_write_only ∅ constructed 4294967295%N eq_refl eq_refl Hfit eq_refl)).
  - exact (call_after_wraparound_writes_again (H := host_with_database)
             cfg_write_only ∅ constructed 4294967295%N eq_refl eq_refl Hfit eq_refl).
Qed.

Lemma cfg_update_fits :
  @removal_and_insertion_fit host_with_database cfg_update (initial_bits cfg_update old_bits).
Proof.
  split_and!; cbn.
  - apply NoDup_singleton.
  - intros k ->%list_elem_of_singleton. eexists. vm_compute. reflexivity.
  - apply NoDup_singleton.
  - intros l ->%list_elem_of_singleton. vm_compute. reflexivity.
Qed.

(** C2 at [cfg_update]: [TkAlMinBias] is removed, [SiStripCalZeroBias] is
    added, [TkAlMuonIsolated] is renamed, and the result is written once. *)
Lemma analyze_update_writes_once :
  exists s',
    @analyze host_with_database cfg_update old_bits constructed = (Returns tt, s')
    /\ database s' =
         database constructed ++
           [write_of cfg_update
              (rename_keys (alcarecoReplace_ cfg_update)
                 (@add_lists host_with_database (triggerListsAdd_ cfg_update)
                    (erase_keys (listNamesRemove_ cfg_update)
                       (initial_bits cfg_update old_bits))))].
Proof.
  apply (@analyze_removes_adds_renames_then_writes_once host_with_database
           cfg_update old_bits constructed).
  - reflexivity.
  - reflexivity.
  - apply cfg_update_fits.
Defined.

(** The map written in that example. *)
Example analyze_update_payload :
  rename_keys (alcarecoReplace_ cfg_update)
    (@add_lists host_with_database (triggerListsAdd_ cfg_update)
       (erase_keys (listNamesRemove_ cfg_update) (initial_bits cfg_update old_bits)))
  = {[ "SiStripCalZeroBias" := "HLT_ZeroBias_v*;HLT_Random_v*";
       "TkAlMuonIsolatedPA" := "HLT_IsoMu24_v*" ]}.
Proof. vm_compute. reflexivity. Qed.

(** C5, the claim as first stated, fails when a key is listed twice: both
    listed keys are in the map, yet the second lookup throws. *)
Lemma removeKeysFromMap_key_listed_twice_throws :
  let keys := ["TkAlMinBias"; "TkAlMinBias"] in
  let s := store_with old_bits in
  (forall k, k ∈ keys -> is_Some (bitsToWrite s !! k))
  /\ removeKeysFromMap keys s
       = (Throws (cannot_remove "TkAlMinBias"),
          set_bitsToWrite (delete "TkAlMinBias" old_bits) s).
Proof.
  split.
  - intros k Hk. assert (k = "TkAlMinBias") as -> by set_solver.
    eexists. vm_compute. reflexivity.
  - vm_compute. reflexivity.
Qed.

(** C5 as amended, at the same input and at one without the repetition. *)
Lemma removeKeysFromMap_examples :
  (exists m',
     removeKeysFromMap ["TkAlMinBias"] (store_with old_bits)
       = (Returns true, set_bitsToWrite m' (store_with old_bits))
     /\ forall k, m' !! k = if decide (k ∈ ["TkAlMinBias"]) then None else old_bits !! k)
  /\ (exists pre k post,
        ["TkAlMinBias"; "TkAlMinBias"] = pre ++ k :: post
        /\ removeKeysFromMap ["TkAlMinBias"; "TkAlMinBias"] (store_with old_bits)
             = (Throws (cannot_remove k),
                set_bitsToWrite (erase_keys pre old_bits) (store_with old_bits))).
Proof.
  split.
  - apply (proj1 (removeKeysFromMap_erases_or_throws (H := host_with_database)
                    ["TkAlMinBias"] (store_with old_bits))).
    split; [apply NoDup_singleton |].
    intros k ->%list_elem_of_singleton. eexists. vm_compute. reflexivity.
  - destruct (removeKeysFromMap_erases_or_throws (H := host_with_database)
                ["TkAlMinBias"; "TkAlMinBias"] (store_with old_bits))
      as (_ & Hthrows & _).
    destruct Hthrows as (pre & k & post & Hkeys & _ & _ & _ & Hrun & _).
    + left. intros Hnd. apply NoDup_cons in Hnd as [Hnotin _]. set_solver.
    + by exists pre, k, post.
Defined.



End UpdateExamples.

(* --------------------------------------------------------------------- *)
(** ** HLTDisplacedEgammaFilter                                            *)
(* --------------------------------------------------------------------- *)

(** *** Comparisons *)

Section Comparisons.
Import HLTDisplacedEgammaFilter.

Lemma Double_le_iff (x y : Q) : Double.le x y = true <-> (x <= y)%Q.
Proof. apply Qle_bool_iff. Qed.

Lemma Double_lt_iff (x y : Q) : Double.lt x y = true <-> (x < y)%Q.
Proof.
  unfold Double.lt. rewrite negb_true_iff, <- not_true_iff_false, Qle_bool_iff.
  split; [apply Qnot_le_lt | apply Qlt_not_le].
Qed.

Lemma Double_ge_iff (x y : Q) : Double.ge x y = true <-> (y <= x)%Q.
Proof. apply Double_le_iff. Qed.

Lemma Double_gt_iff (x y : Q) : Double.gt x y = true <-> (y < x)%Q.
Proof. apply Double_lt_iff. Qed.

(** Every comparison with a NaN is false. *)
Lemma Double_lt_NaN (x : Double.t) :
  Double.lt Double.NaN x = false /\ Double.gt Double.NaN x = false
  /\ Double.le Double.NaN x = false /\ Double.ge Double.NaN x = false.
Proof. by destruct x. Qed.

(** [x < lo || x > hi] is false exactly when [x] is a number with
    [lo <= x <= hi], or a NaN. *)
Lemma outside_false_iff (lo hi : Q) (x : Double.t) :
  Double.lt x lo || Double.gt x hi = false
  <-> x = Double.NaN \/ in_window lo x hi.
Proof.
  destruct x as [|q]; cbn [in_window].
  - split; [by left | done].
  - rewrite orb_false_iff. unfold Double.gt, Double.lt.
    rewrite !negb_false_iff, !Qle_bool_iff.
    split; [by right | by intros [|]].
Qed.


End Comparisons.

(** *** Machine integers *)

Section Counters.
Import MachineInt.

Lemma int_incr_small n : 0 <= n < INT_MAX -> int_incr n = n + 1.
Proof.
  unfold int_incr, wrap_signed, INT_MAX. intros Hn.
  rewrite Z.mod_small by lia. lia.
Qed.

End Counters.

(** *** The loop over the tracks *)

Section FilterProperties.
Import MachineInt HLTDisplacedEgammaFilter.
Context `{Tools}.
Variable cfg : Config.

Implicit Types (ev : Event) (ref : Ref) (log : list Applied).

Lemma nearby_tracks_cons ref it trks :
  nearby_tracks cfg ref (it :: trks) =
    if Double.lt (pt it) (trkPtCut cfg) then nearby_tracks cfg ref trks
    else if Double.lt (DeltaR (trkP4 it) (p4 ref)) (trkdRCut cfg)
         then it :: nearby_tracks cfg ref trks
         else nearby_tracks cfg ref trks.
Proof.
  unfold nearby_tracks. cbn [List.filter].
  destruct (Double.lt (DeltaR (trkP4 it) (p4 ref)) (trkdRCut cfg)).
  - rewrite andb_true_r. unfold Double.ge, Double.le, Double.lt.
    by destruct (Qle_bool (trkPtCut cfg) (pt it)).
  - rewrite andb_false_r. by destruct (Double.lt (pt it) (trkPtCut cfg)).
Qed.

(** Leaving the loop early does not change the comparison made after it:
    with no overflow of the counter, [nTrk] ends above [maxTrkCut] exactly
    when the number it started from plus the number of nearby tracks is. *)
Lemma count_tracks_above ref trks nTrk :
  0 <= nTrk ->
  nTrk + Z.of_nat (length trks) <= INT_MAX ->
  (count_tracks cfg ref trks nTrk >? maxTrkCut cfg)
    = (nTrk + Z.of_nat (length (nearby_tracks cfg ref trks)) >? maxTrkCut cfg).
Proof.
  revert nTrk. induction trks as [|it trks IH]; intros nTrk Hpos Hmax.
  - cbn. by rewrite Z.add_0_r.
  - rewrite nearby_tracks_cons. cbn [count_tracks length] in *.
    destruct (Double.lt (pt it) (trkPtCut cfg)); [apply IH; lia |].
    fold (trkP4 it).
    assert (length (nearby_tracks cfg ref trks) <= length trks)%nat as Hlen
      by apply filter_length_le.
    destruct (Double.lt (DeltaR (trkP4 it) (p4 ref)) (trkdRCut cfg)).
    + rewrite int_incr_small by lia.
      destruct (Z.gtb_spec (nTrk + 1) (maxTrkCut cfg)) as [Habove|Hbelow].
      * transitivity true; [apply Z.gtb_lt; lia |].
        symmetry. apply Z.gtb_lt. cbn [length]. lia.
      * rewrite IH by lia. cbn [length]. f_equal. lia.
    + destruct (Z.gtb_spec nTrk (maxTrkCut cfg)) as [Habove|Hbelow].
      * transitivity true; [apply Z.gtb_lt; lia |].
        symmetry. apply Z.gtb_lt. lia.
      * by rewrite IH by lia.
Qed.

(** *** The loop body *)

(** The loop body applies the five cuts in the listed order. *)
Lemma loop_body_in_order ev ref :
  loop_body cfg ev ref = apply_in_order cut_order (skips_at cfg ev ref).
Proof.
  unfold loop_body, cut_order. cbn [apply_in_order skips_at].
  unfold seed_rechit, moments_of, rechits_of, test, deref.
  unfold mbind, W_bind, mret, W_ret.
  destruct (EBOnly cfg && _); [done |].
  destruct (Double.lt (sMin _) _ || Double.gt (sMin _) _); [done |].
  destruct (Double.lt (sMaj _) _ || Double.gt (sMaj _) _); [done |].
  destruct (find _ _) as [seedRH|]; [|done]. cbn [fmap option_fmap option_map].
  destruct (Double.lt (time seedRH) _ || Double.gt (time seedRH) _); [done |].
  by destruct (_ >? _).
Qed.

Lemma apply_in_order_defined cuts (condition : Cut -> option bool) :
  (forall c, c ∈ cuts -> is_Some (condition c)) ->
  is_Some (apply_in_order cuts condition).
Proof.
  induction cuts as [|c cuts IH]; intros Hdef; cbn.
  - by eexists.
  - destruct (Hdef c) as [[|] ->]; [set_solver | by eexists |].
    destruct IH as [[v log] ->]; [set_solver | by eexists].
Qed.


Lemma apply_in_order_passed cuts (condition : Cut -> option bool) :
  (exists log, apply_in_order cuts condition = Some (Passed, log))
  <-> forall c, c ∈ cuts -> condition c = Some false.
Proof.
  induction cuts as [|c cuts IH]; cbn.
  - split; [set_solver | by eexists].
  - destruct (condition c) as [[|]|] eqn:Hc.
    + split; [by intros [? ?] | intros Hall; specialize (Hall c); set_solver].
    + destruct (apply_in_order cuts condition) as [[[|] log']|].
      * split; [by intros [? ?] |].
        intros Hall. destruct (proj2 IH) as [? ?]; [set_solver | done].
      * split; [| by eexists].
        intros _ c' [->|Hc']%elem_of_cons; [done |].
        apply IH; [by eexists | done].
      * split; [by intros [? ?] |].
        intros Hall. destruct (proj2 IH) as [? ?]; [set_solver | done].
    + split; [by intros [? ?] | intros Hall; specialize (Hall c); set_solver].
Qed.

Lemma loop_body_defined ev ref :
  is_Some (seed_rechit ev ref) -> is_Some (loop_body cfg ev ref).
Proof.
  intros Hseed. rewrite loop_body_in_order. apply apply_in_order_defined.
  intros [] _; cbn; [done | done | done | | done].
  destruct Hseed as [seedRH ->]. by eexists.
Qed.

Lemma loop_body_passed ev ref :
  (exists log, loop_body cfg ev ref = Some (Passed, log)) <-> passes_all_cuts cfg ev ref = true.
Proof.
  rewrite loop_body_in_order, apply_in_order_passed.
  unfold passes_all_cuts. rewrite forallb_forall.
  split; intros Hall c Hc.
  - apply bool_decide_eq_true. apply Hall. by apply list_elem_of_In.
  - eapply bool_decide_eq_true, Hall. by apply list_elem_of_In.
Qed.


Lemma loop_body_not_passed ev ref log :
  loop_body cfg ev ref = Some (Skipped, log) -> passes_all_cuts cfg ev ref = false.
Proof.
  intros Hrun. apply not_true_iff_false. intros [log' Hrun']%loop_body_passed. congruence.
Qed.

(** *** The loop over the candidates *)

Lemma candidates_loop_result ev cands st :
  Forall (fun ref => is_Some (loop_body cfg ev ref)) cands ->
  exists st' logs,
    candidates_loop cfg ev cands st = Some st'
    /\ photons (filterproduct st')
         = photons (filterproduct st)
             ++ as_clusters (List.filter (passes_all_cuts cfg ev) cands)
    /\ collectionTags (filterproduct st') = collectionTags (filterproduct st)
    /\ evaluated st' = evaluated st ++ logs
    /\ Forall2 (fun ref log => exists v, loop_body cfg ev ref = Some (v, log)) cands logs
    /\ (0 <= n st ->
        n st + Z.of_nat (length cands) <= INT_MAX ->
        n st' = n st + Z.of_nat (length (List.filter (passes_all_cuts cfg ev) cands))).
Proof.
  revert st. induction cands as [|ref cands IH]; intros st Hdef.
  - exists st, []. cbn. rewrite !app_nil_r.
    split_and!; [done | done | done | done | constructor | lia].
  - apply Forall_cons in Hdef as [[[v log] Hrun] Hdef].
    cbn [candidates_loop List.filter]. rewrite Hrun. destruct v.
    + rewrite (loop_body_not_passed _ _ _ Hrun).
      destruct (IH {| n := n st; filterproduct := filterproduct st;
                      evaluated := evaluated st ++ [log] |} Hdef)
        as (st' & logs & -> & Hphotons & Htags & Hlogs & Hall & Hn).
      cbn in *. exists st', (log :: logs).
      split_and!; [done | done | done | | |].
      * by rewrite Hlogs, <- app_assoc.
      * constructor; [by eexists | done].
      * intros. apply Hn; lia.
    + rewrite (proj1 (loop_body_passed ev ref)) by by eexists.
      destruct (IH {| n := int_incr (n st);
                      filterproduct := addObject TriggerCluster ref (filterproduct st);
                      evaluated := evaluated st ++ [log] |} Hdef)
        as (st' & logs & -> & Hphotons & Htags & Hlogs & Hall & Hn).
      cbn in *. exists st', (log :: logs).
      split_and!; [done | | done | | |].
      * by rewrite Hphotons, <- app_assoc.
      * by rewrite Hlogs, <- app_assoc.
      * constructor; [by eexists | done].
      * intros Hpos Hmax. rewrite int_incr_small in Hn by lia.
        rewrite Hn by lia. lia.
Qed.

Lemma hltFilter_result ev filterproduct0 :
  Forall (fun ref => is_Some (seed_rechit ev ref)) (recoecalcands ev) ->
  let passing := List.filter (passes_all_cuts cfg ev) (recoecalcands ev) in
  exists res,
    hltFilter cfg ev filterproduct0 = Some res
    /\ photons (product res) = photons filterproduct0 ++ as_clusters passing
    /\ Forall2 (fun ref log => exists v, loop_body cfg ev ref = Some (v, log))
         (recoecalcands ev) (cuts_evaluated res)
    /\ (Z.of_nat (length (recoecalcands ev)) <= INT_MAX ->
        accept res = (Z.of_nat (length passing) >=? ncandcut_ cfg)).
Proof.
  intros Hseed passing. unfold hltFilter.
  edestruct (candidates_loop_result ev (recoecalcands ev))
    as (st' & logs & -> & Hphotons & _ & Hlogs & Hall & Hn).
  { eapply Forall_impl; [exact Hseed |]. intros ref. apply loop_body_defined. }
  cbn in *. eexists. split; [done |]. cbn.
  split_and!.
  - rewrite Hphotons. by destruct (saveTags cfg).
  - by rewrite Hlogs.
  - intros Hmax. rewrite Hn by lia. done.
Qed.

Lemma getObjects_added (obj obj' : TriggerFilterObjectWithRefs) refs id :
  photons obj' = photons obj ++ as_clusters refs ->
  getObjects obj' id
    = getObjects obj id ++ (if decide (id = TriggerCluster) then refs else []).
Proof.
  intros Hadded. unfold getObjects. rewrite Hadded, List.filter_app, map_app. f_equal.
  clear Hadded. induction refs as [|ref refs IH]; [by case_decide |].
  change (as_clusters (ref :: refs)) with ((TriggerCluster, ref) :: as_clusters refs).
  cbn [List.filter fst]. destruct id.
  - rewrite bool_decide_eq_false_2 by done. rewrite IH. by rewrite decide_False.
  - rewrite bool_decide_eq_true_2 by done. cbn [map snd]. rewrite IH.
    by rewrite !decide_True.
Qed.

(** *** The claims about [hltFilter] *)

(** Splits a run of the loop body into the ways it can end. *)
Ltac loop_body_cases Hrun :=
  rewrite loop_body_in_order in Hrun; unfold cut_order in Hrun;
  cbn [apply_in_order] in Hrun;
  repeat match type of Hrun with
         | context [skips_at ?cfg ?ev ?ref ?c] =>
             let Hc := fresh "Hcut" in
             destruct (skips_at cfg ev ref c) as [[|]|] eqn:Hc
         end;
  try discriminate Hrun; injection Hrun as <- <-.



(** C3.  [hltFilter] returns [true] exactly when at least [ncandcut_]
    candidates pass all cuts.  Every passing candidate is added to the
    filter product as a [TriggerCluster], also when the candidates were
    stored as [TriggerPhoton] by the previous filter; those are taken only
    when the previous filter stored no [TriggerCluster]. *)
Theorem hltFilter_accepts_and_fills_product ev filterproduct0 :
  Forall (fun ref => is_Some (seed_rechit ev ref)) (recoecalcands ev) ->
  Z.of_nat (length (recoecalcands ev)) <= INT_MAX ->
  let passing := List.filter (passes_all_cuts cfg ev) (recoecalcands ev) in
  exists res,
    hltFilter cfg ev filterproduct0 = Some res
    /\ (accept res = true <-> ncandcut_ cfg <= Z.of_nat (length passing))
    /\ getObjects (product res) TriggerCluster
         = getObjects filterproduct0 TriggerCluster ++ passing
    /\ getObjects (product res) TriggerPhoton = getObjects filterproduct0 TriggerPhoton
    /\ (getObjects (PrevFilterOutput ev) TriggerCluster <> [] ->
        recoecalcands ev = getObjects (PrevFilterOutput ev) TriggerCluster)
    /\ (getObjects (PrevFilterOutput ev) TriggerCluster = [] ->
        recoecalcands ev = getObjects (PrevFilterOutput ev) TriggerPhoton).
Proof.
  intros Hseed Hmax passing.
  destruct (hltFilter_result ev filterproduct0 Hseed) as (res & Hres & Hphotons & _ & Hacc).
  exists res. fold passing in Hphotons, Hacc.
  split_and!.
  - done.
  - rewrite Hacc by done. rewrite Z.geb_le. done.
  - by rewrite (getObjects_added _ _ _ _ Hphotons), decide_True.
  - by rewrite (getObjects_added _ _ _ _ Hphotons), decide_False, app_nil_r.
  - intros Hne. unfold recoecalcands. by rewrite bool_decide_eq_false_2.
  - intros Hempty. unfold recoecalcands. by rewrite bool_decide_eq_true_2.
Qed.

(** C4, as amended.  The eta cut is applied only when [EBOnly] is set: a
    candidate with [|eta| >= 1.479] is then skipped at once, whatever the
    other parameters.  With [EBOnly] not set, or with [|eta| < 1.479], the
    eta cut lets the candidate through to the shape cuts. *)
Theorem eta_cut_only_when_EBOnly ev ref :
  (EBOnly cfg = true ->
   (exists q, eta ref = Double.Num q /\ (1.479 <= Qabs q)%Q) ->
     loop_body cfg ev ref = Some (Skipped, [{| cut := EtaCut; skips := true |}]))
  /\ (EBOnly cfg = false \/ (exists q, eta ref = Double.Num q /\ (Qabs q < 1.479)%Q) ->
      forall v log,
        loop_body cfg ev ref = Some (v, log) ->
        exists b rest,
          log = {| cut := EtaCut; skips := false |} :: {| cut := SMinCut; skips := b |} :: rest).
Proof.
  split.
  - intros HEB (q & Hq & Heta%Double_ge_iff).
    rewrite loop_body_in_order. unfold cut_order. cbn [apply_in_order skips_at].
    rewrite Hq. change (Double.abs q) with (Double.Num (Qabs q)). by rewrite HEB, Heta.
  - intros Hthrough v log Hrun.
    assert (skips_at cfg ev ref EtaCut = Some false) as Heta.
    { cbn. f_equal. destruct Hthrough as [->|(q & -> & Hlt%Double_lt_iff)]; [done |].
      apply andb_false_intro2. unfold Double.lt, Double.abs, Double.ge, Double.le in *.
      by apply negb_true_iff. }
    loop_body_cases Hrun; try congruence; by eexists _, _.
Qed.



End FilterProperties.

(** *** The claims at concrete events *)

Section FilterExamples.
Import MachineInt HLTDisplacedEgammaFilter.

Lemma example_event_seeds :
  Forall (fun ref => is_Some (@seed_rechit example_tools example_event ref))
         (@recoecalcands example_event).
Proof. repeat constructor; by eexists. Qed.


Example cuts_example_log :
  cuts_evaluated <$> @hltFilter example_tools cfg_default example_event no_product
  = Some [ all_passed;
           [ {| cut := EtaCut; skips := false |}; {| cut := SMinCut; skips := false |};
             {| cut := SMajCut; skips := false |}; {| cut := SeedTimeCut; skips := true |} ];
           all_passed ].
Proof. vm_compute. reflexivity. Qed.

(** C3 at the example event, whose candidates were stored as photons. *)
Lemma hltFilter_example :
  let passing := List.filter (@passes_all_cuts example_tools cfg_default example_event)
                   (@recoecalcands example_event) in
  exists res,
    @hltFilter example_tools cfg_default example_event no_product = Some res
    /\ (accept res = true <-> ncandcut_ cfg_default <= Z.of_nat (length passing))
    /\ getObjects (product res) TriggerCluster
         = getObjects no_product TriggerCluster ++ passing
    /\ getObjects (product res) TriggerPhoton = getObjects no_product TriggerPhoton
    /\ (getObjects (PrevFilterOutput example_event) TriggerCluster <> [] ->
        @recoecalcands example_event
          = getObjects (PrevFilterOutput example_event) TriggerCluster)
    /\ (getObjects (PrevFilterOutput example_event) TriggerCluster = [] ->
        @recoecalcands example_event
          = getObjects (PrevFilterOutput example_event) TriggerPhoton).
Proof.
  apply (@hltFilter_accepts_and_fills_product example_tools cfg_default
           example_event no_product).
  - apply example_event_seeds.
  - vm_compute. discriminate.
Defined.

Example hltFilter_example_result :
  @hltFilter example_tools cfg_default example_event no_product
  = Some {| accept := true;
            product := {| collectionTags := ["hltL1IsoRecoEcalCandidate"];
                          photons := [(TriggerCluster, barrel_candidate);
                                      (TriggerCluster, endcap_candidate)] |};
            cuts_evaluated :=
              [ all_passed;
                [ {| cut := EtaCut; skips := false |}; {| cut := SMinCut; skips := false |};
                  {| cut := SMajCut; skips := false |}; {| cut := SeedTimeCut; skips := true |} ];
                all_passed ] |}.
Proof. vm_compute. reflexivity. Qed.


(** C4, the claim as first stated, fails with the default configuration:
    the endcap candidate has [|eta| = 2.0 >= 1.479], and it passes all cuts
    and is added to the product. *)
Lemma endcap_candidate_passes_by_default :
  (exists q, eta endcap_candidate = Double.Num q /\ (1.479 <= Qabs q)%Q)
  /\ @loop_body example_tools cfg_default example_event endcap_candidate
       = Some (Passed, all_passed)
  /\ (exists res,
        @hltFilter example_tools cfg_default example_event no_product = Some res
        /\ (TriggerCluster, endcap_candidate) ∈ photons (product res)).
Proof.
  split_and!.
  - exists 2.0%Q. split; [reflexivity | vm_compute; discriminate].
  - vm_compute. reflexivity.
  - eexists. split; [vm_compute; reflexivity |]. cbn. set_solver.
Qed.

(** C4 as amended, at the endcap candidate: skipped at once with [EBOnly],
    let through to the shape cuts without it. *)
Lemma eta_cut_example :
  @loop_body example_tools cfg_barrel_only example_event endcap_candidate
    = Some (Skipped, [{| cut := EtaCut; skips := true |}])
  /\ exists b rest,
       all_passed = {| cut := EtaCut; skips := false |} :: {| cut := SMinCut; skips := b |} :: rest.
Proof.
  split.
  - apply (proj1 (@eta_cut_only_when_EBOnly example_tools cfg_barrel_only
                    example_event endcap_candidate)).
    + reflexivity.
    + exists 2.0%Q. split; [reflexivity | vm_compute; discriminate].
  - apply (proj2 (@eta_cut_only_when_EBOnly example_tools cfg_default
                    example_event endcap_candidate) (or_introl eq_refl) Passed all_passed).
    vm_compute. reflexivity.
Defined.




End FilterExamples.

(* --------------------------------------------------------------------- *)
(** ** The script that regenerates the HLT tables                          *)
(* --------------------------------------------------------------------- *)

Section TablesScriptProperties.
Import TablesScript.

(** C10.  Whatever the environment the script starts in and whatever the
    sourced file does to the variables, the script sources exactly one
    file, [subtables.sh], and then calls [createSubtables] exactly once,
    with four arguments: [v3/run3] and the values of [MASTER], [TARGET] and
    [TABLES].  It performs nothing else. *)
Theorem script_sources_then_calls_once `{SourcedFiles} (env : gmap string string) :
  let vars := run_file "subtables.sh" (assigned env) in
  performed (script (started env)).2 =
    [Sourced "subtables.sh";
     Called "createSubtables"
       ["v3/run3";
        default EmptyString (vars !! "MASTER");
        default EmptyString (vars !! "TARGET");
        default EmptyString (vars !! "TABLES")]].
Proof. unfold script, started. cbn. reflexivity. Qed.

(** When the sourced file leaves the three variables alone, the arguments
    are the values the script assigned. *)
Lemma script_arguments (env : gmap string string) :
  performed (@script defines_functions_only (started env)).2 =
    [Sourced "subtables.sh";
     Called "createSubtables"
       ["v3/run3"; "/dev/CMSSW_10_1_0/HLT"; "/online/collisions/2018/2e34/v3.6/HLT";
        "online_grun"]].
Proof.
  change (performed (@script defines_functions_only (started env)).2)
    with [Sourced "subtables.sh";
          Called "createSubtables"
            ["v3/run3";
             default EmptyString (assigned env !! "MASTER");
             default EmptyString (assigned env !! "TARGET");
             default EmptyString (assigned env !! "TABLES")]].
  unfold assigned.
  by rewrite lookup_insert_ne, lookup_insert_ne, lookup_insert_eq,
             lookup_insert_ne, lookup_insert_eq, lookup_insert_eq.
Qed.

End TablesScriptProperties.

(* ===================================================================== *)
(** * Part III.  Further properties of the code                           *)
(* ===================================================================== *)

(* --------------------------------------------------------------------- *)
(** ** AlCaRecoTriggerBitsRcdUpdate: insertion                             *)
(* --------------------------------------------------------------------- *)

Section UpdateInsertion.
Import MachineInt AlCaRecoTriggerBitsRcdUpdate AlCaRecoScenarios.
Context `{Host}.

Implicit Types (s : Store) (m : TriggerMap) (lists : list TriggerListPSet).

Lemma add_lists_lookup_other lists m k :
  k ∉ map listName lists -> add_lists lists m !! k = m !! k.
Proof.
  revert m. induction lists as [|iSet lists IH]; intros m Hk; [done |].
  cbn [map] in Hk. rewrite add_lists_cons, IH by set_solver.
  apply lookup_insert_ne. set_solver.
Qed.

Lemma add_lists_lookup_added lists m iSet :
  NoDup (map listName lists) ->
  iSet ∈ lists ->
  add_lists lists m !! listName iSet = Some (compose (hltPaths iSet)).
Proof.
  revert m. induction lists as [|iSet' lists IH]; intros m Hnd Hin.
  - by apply elem_of_nil in Hin.
  - cbn [map] in Hnd. apply NoDup_cons in Hnd as [Hfirst Hnd].
    rewrite add_lists_cons. apply elem_of_cons in Hin as [->|Hin].
    + rewrite add_lists_lookup_other by done. apply lookup_insert_eq.
    + by apply IH.
Qed.

Lemma addTriggerLists_inv_returns lists s b s' :
  addTriggerLists lists s = (Returns b, s') ->
  b = true
  /\ NoDup (map listName lists)
  /\ (forall l, l ∈ map listName lists -> bitsToWrite s !! l = None).
Proof.
  revert s. induction lists as [|iSet lists IH]; intros s.
  - cbn. intros [= <- <-]. split_and!; [done | constructor | set_solver].
  - rewrite addTriggerLists_cons. case_decide as Hl; [done |].
    intros (-> & Hnd & Hfresh)%IH. cbn in Hfresh. cbn [map].
    assert (listName iSet ∉ map listName lists) as Hnotin.
    { intros Hin%Hfresh. by rewrite lookup_insert_eq in Hin. }
    split_and!; [done | by constructor |].
    intros l [->|Hin]%elem_of_cons.
    + by apply eq_None_not_Some.
    + specialize (Hfresh l Hin). by apply lookup_insert_None in Hfresh as [? _].
Qed.

Lemma addTriggerLists_inv_throws lists s e s' :
  addTriggerLists lists s = (Throws e, s') ->
  exists pre iSet post,
    lists = pre ++ iSet :: post
    /\ NoDup (map listName pre)
    /\ (forall l, l ∈ map listName pre -> bitsToWrite s !! l = None)
    /\ (is_Some (bitsToWrite s !! listName iSet) \/ listName iSet ∈ map listName pre)
    /\ e = already_in_map (listName iSet)
    /\ s' = set_bitsToWrite (add_lists pre (bitsToWrite s)) s.
Proof.
  revert s. induction lists as [|iSet lists IH]; intros s; [done |].
  rewrite addTriggerLists_cons. case_decide as Hl.
  - intros [= <- <-]. exists [], iSet, lists.
    split_and!; [done | constructor | set_solver | by left | done |].
    cbn. by rewrite set_bitsToWrite_same.
  - intros (pre & iSet' & post & -> & Hnd & Hfresh & Hclash & -> & ->)%IH.
    cbn in Hfresh, Hclash.
    exists (iSet :: pre), iSet', post. cbn [map].
    assert (listName iSet ∉ map listName pre) as Hnotin.
    { intros Hin%Hfresh. by rewrite lookup_insert_eq in Hin. }
    split_and!; [done | by constructor | | | done | done].
    + intros l [->|Hin]%elem_of_cons.
      * by apply eq_None_not_Some.
      * specialize (Hfresh l Hin). by apply lookup_insert_None in Hfresh as [? _].
    + destruct Hclash as [[v Hv]|Hin]; [|set_solver].
      destruct (decide (listName iSet = listName iSet')) as [Heq|Hne].
      * right. rewrite <- Heq. set_solver.
      * left. rewrite lookup_insert_ne in Hv by done. by eexists.
Qed.

(** X1.  [addTriggerLists] returns [true], having stored under every list
    name its merged paths and left the other keys alone, when the list
    names are distinct and none is in the map.  When a list name is in the
    map already, or is given a second time, it throws a [BadConfig]
    exception at the first such entry, the entries before it having been
    inserted.  It never returns [false]. *)
Theorem addTriggerLists_inserts_or_throws lists s :
  (NoDup (map listName lists)
   /\ (forall l, l ∈ map listName lists -> bitsToWrite s !! l = None) ->
     exists m',
       addTriggerLists lists s = (Returns true, set_bitsToWrite m' s)
       /\ (forall iSet, iSet ∈ lists -> m' !! listName iSet = Some (compose (hltPaths iSet)))
       /\ (forall k, k ∉ map listName lists -> m' !! k = bitsToWrite s !! k))
  /\ (~ NoDup (map listName lists)
      \/ (exists l, l ∈ map listName lists /\ is_Some (bitsToWrite s !! l)) ->
       exists pre iSet post,
         lists = pre ++ iSet :: post
         /\ NoDup (map listName pre)
         /\ (forall l, l ∈ map listName pre -> bitsToWrite s !! l = None)
         /\ (is_Some (bitsToWrite s !! listName iSet) \/ listName iSet ∈ map listName pre)
         /\ addTriggerLists lists s
              = (Throws (already_in_map (listName iSet)),
                 set_bitsToWrite (add_lists pre (bitsToWrite s)) s)
         /\ category (already_in_map (listName iSet)) = "BadConfig")
  /\ (forall s', addTriggerLists lists s <> (Returns false, s')).
Proof.
  split_and!.
  - intros [Hnd Hfresh]. exists (add_lists lists (bitsToWrite s)). split_and!.
    + by apply addTriggerLists_returns.
    + intros iSet Hin. by apply add_lists_lookup_added.
    + intros k Hk. by apply add_lists_lookup_other.
  - intros Hbad.
    destruct (addTriggerLists lists s) as [[b|e] s'] eqn:Hrun.
    + apply addTriggerLists_inv_returns in Hrun as (_ & Hnd & Hfresh).
      destruct Hbad as [Hdup|(l & Hl & [v Hv])]; [done |].
      rewrite (Hfresh l Hl) in Hv. done.
    + apply addTriggerLists_inv_throws in Hrun
        as (pre & iSet & post & -> & Hnd & Hfresh & Hclash & -> & ->).
      by exists pre, iSet, post.
  - intros s' Hrun. by apply addTriggerLists_inv_returns in Hrun as [? _].
Qed.

End UpdateInsertion.

(* --------------------------------------------------------------------- *)
(** ** AlCaRecoTriggerBitsRcdUpdate: writing and configuration             *)
(* --------------------------------------------------------------------- *)

Section UpdateWriting.
Import MachineInt AlCaRecoTriggerBitsRcdUpdate AlCaRecoScenarios.
Context `{Host}.

Implicit Types (s : Store) (m : TriggerMap) (cfg : Config).

(** *** What is left alone *)

Lemma preserves_bind {A B C} (field : Store -> C) (c : M A) (f : A -> M B) :
  preserves field c -> (forall a, preserves field (f a)) -> preserves field (c ≫= f).
Proof.
  intros Hc Hf s. unfold mbind, M_bind. specialize (Hc s).
  destruct (c s) as [[a|e] s1]; cbn in *; [| done]. by rewrite Hf.
Qed.

Lemma removeKeysFromMap_preserves {C} (field : Store -> C) keys :
  (forall m s, field (set_bitsToWrite m s) = field s) ->
  preserves field (removeKeysFromMap keys).
Proof.
  intros Hfield s. destruct (removeKeysFromMap_frame keys s) as [m' ->]. apply Hfield.
Qed.

Lemma addTriggerLists_preserves {C} (field : Store -> C) lists :
  (forall m s, field (set_bitsToWrite m s) = field s) ->
  preserves field (addTriggerLists lists).
Proof.
  intros Hfield s. destruct (addTriggerLists_frame lists s) as [m' ->]. apply Hfield.
Qed.

Lemma replaceKeysFromMap_preserves {C} (field : Store -> C) pairs :
  (forall m s, field (set_bitsToWrite m s) = field s) ->
  (forall l s, field (add_message l s) = field s) ->
  preserves field (replaceKeysFromMap pairs).
Proof.
  intros Hfield Hmsg s. rewrite replaceKeysFromMap_result.
  destruct first_missing; cbn [snd]; by rewrite ?Hmsg, Hfield.
Qed.

Lemma analyze_unfold cfg iSetup s :
  analyze cfg iSetup s =
    let s0 := set_nEventCalls (wrap_unsigned (nEventCalls_ s + 1)) s in
    if 0 <? nEventCalls_ s then (Returns tt, add_message write_only_once s0)
    else (removeKeysFromMap (listNamesRemove_ cfg);;
          addTriggerLists (triggerListsAdd_ cfg);;
          replaceKeysFromMap (alcarecoReplace_ cfg);;
          writeBitsToDB cfg) (set_bitsToWrite (initial_bits cfg iSetup) s0).
Proof. unfold analyze, mbind, M_bind, gets, modify. cbn. by destruct (0 <? nEventCalls_ s). Qed.

Lemma writeBitsToDB_unavailable cfg s :
  poolDbService_isAvailable = false ->
  writeBitsToDB cfg s = (Throws service_not_available, add_message uploading s).
Proof. intros Hav. unfold writeBitsToDB. rewrite Hav. done. Qed.

Lemma analyze_keeps_database_without_service cfg iSetup :
  poolDbService_isAvailable = false -> preserves database (analyze cfg iSetup).
Proof.
  intros Hav s. rewrite analyze_unfold. cbv zeta.
  destruct (0 <? nEventCalls_ s); [done |].
  set (s0 := set_bitsToWrite _ _). change (database s) with (database s0).
  generalize s0. clear s s0. change (preserves database
    (removeKeysFromMap (listNamesRemove_ cfg);;
     addTriggerLists (triggerListsAdd_ cfg);;
     replaceKeysFromMap (alcarecoReplace_ cfg);;
     writeBitsToDB cfg)).
  apply preserves_bind; [by apply removeKeysFromMap_preserves | intros _].
  apply preserves_bind; [by apply addTriggerLists_preserves | intros _].
  apply preserves_bind; [by apply replaceKeysFromMap_preserves | intros _].
  intros s. by rewrite writeBitsToDB_unavailable.
Qed.

(** X2.  Without the [PoolDBOutputService] nothing is ever written,
    however many events are processed and whatever the configuration; a
    first call whose removal and insertion fit throws [NotAvailable] only
    after the map operations have been carried out. *)
Theorem nothing_written_without_service cfg :
  poolDbService_isAvailable = false ->
  (forall events s, database (analyze_events cfg events s).2 = database s)
  /\ (forall iSetup s,
        nEventCalls_ s = 0 ->
        removal_and_insertion_fit cfg (initial_bits cfg iSetup) ->
        outcome_of (analyze cfg iSetup s) = Throws service_not_available
        /\ bitsToWrite (analyze cfg iSetup s).2
             = rename_keys (alcarecoReplace_ cfg)
                 (add_lists (triggerListsAdd_ cfg)
                    (erase_keys (listNamesRemove_ cfg) (initial_bits cfg iSetup)))).
Proof.
  intros Hav. split.
  - induction events as [|iSetup events IH]; intros s; [done |].
    cbn [analyze_events].
    apply (preserves_bind database (analyze cfg iSetup) (fun _ => analyze_events cfg events)).
    + by apply analyze_keeps_database_without_service.
    + intros _ s'. apply IH.
  - intros iSetup s Hn (Hnd & Hin & Hnd' & Hfresh).
    rewrite analyze_first_call by done. unfold mbind, M_bind.
    rewrite removeKeysFromMap_returns by done.
    rewrite addTriggerLists_returns by done.
    rewrite replaceKeysFromMap_result. cbn [bitsToWrite set_bitsToWrite].
    destruct first_missing; by rewrite writeBitsToDB_unavailable.
Qed.

(** *** The parameters [lastRunIOV] and [startEmpty] *)

Lemma same_but_messages_bind {A B} (c : M A) (f g : A -> M B) s :
  (forall a s1, same_but_messages (f a s1) (g a s1)) ->
  same_but_messages ((c ≫= f) s) ((c ≫= g) s).
Proof.
  intros Hfg. unfold mbind, M_bind. destruct (c s) as [[a|e] s1]; [apply Hfg | done].
Qed.

(** X3.  [lastRunIOV] has no effect on what a call of [analyze] does
    besides the text of the last log message: the call ends the same way,
    and leaves the same counter, the same map and the same database. *)
Theorem lastRunIOV_only_changes_the_log last cfg iSetup s :
  same_but_messages (analyze (with_lastRunIOV last cfg) iSetup s) (analyze cfg iSetup s).
Proof.
  rewrite !analyze_unfold. cbv zeta.
  destruct (0 <? nEventCalls_ s); [done |].
  change (initial_bits (with_lastRunIOV last cfg) iSetup) with (initial_bits cfg iSetup).
  cbn [listNamesRemove_ triggerListsAdd_ alcarecoReplace_ with_lastRunIOV].
  apply same_but_messages_bind. intros _ s1.
  apply same_but_messages_bind. intros _ s2.
  apply same_but_messages_bind. intros _ s3.
  unfold writeBitsToDB, mbind, M_bind, modify, gets, throw.
  by destruct poolDbService_isAvailable.
Qed.

(** X4.  With [startEmpty] the content of the event setup is not looked
    at, and a non-empty [listNamesRemove] makes the first call throw
    [BadConfig] for its first key, before anything is written. *)
Theorem startEmpty_ignores_setup_and_cannot_remove cfg :
  startEmpty_ cfg = true ->
  (forall iSetup iSetup' s, analyze cfg iSetup s = analyze cfg iSetup' s)
  /\ (forall k keys iSetup s,
        nEventCalls_ s = 0 ->
        listNamesRemove_ cfg = k :: keys ->
        analyze cfg iSetup s
          = (Throws (cannot_remove k), set_bitsToWrite ∅ (set_nEventCalls 1 s))).
Proof.
  intros Hempty. split.
  - intros iSetup iSetup' s. rewrite !analyze_unfold. unfold initial_bits. by rewrite Hempty.
  - intros k keys iSetup s Hn Hkeys.
    rewrite analyze_first_call by done. unfold initial_bits. rewrite Hempty, Hkeys.
    apply bind_throws. rewrite removeKeysFromMap_cons. cbn [bitsToWrite set_bitsToWrite].
    rewrite decide_False; [done |]. rewrite lookup_empty. by intros [? ?].
Qed.

(** *** Replacing the paths of a list *)


(** X6.  As long as the call counter stays within its 32 bits, that is for
    up to 2^32 calls on a freshly constructed module, the database is
    written at most once, and once a first call has returned every later
    call returns having only logged the warning: the counter is not
    looked at again, nor the map, nor the database. *)
Theorem calls_within_counter_range_write_at_most_once cfg events s :
  nEventCalls_ s = 0 ->
  Z.of_nat (length events) <= UINT_MODULUS ->
  (exists writes,
     database (analyze_events cfg events s).2 = database s ++ writes
     /\ (length writes <= 1)%nat)
  /\ (forall iSetup later s1,
        events = iSetup :: later ->
        analyze cfg iSetup s = (Returns tt, s1) ->
        exists s',
          analyze_events cfg later s1 = (Returns tt, s')
          /\ database s' = database s1
          /\ bitsToWrite s' = bitsToWrite s1
          /\ messages s' = messages s1 ++ repeat write_only_once (length later)).
Proof.
  intros Hn Hlen. split.
  - by apply write_at_most_once_within_counter_range.
  - intros iSetup later s1 -> Hrun. cbn [length] in Hlen.
    destruct (analyze_first_call_writes_at_most_once cfg iSetup s Hn) as [Hn1 _].
    rewrite Hrun in Hn1. cbn [snd] in Hn1.
    apply analyze_events_only_warn; rewrite Hn1; unfold UINT_MODULUS in *; lia.
Qed.

(** *** Renaming *)

(** X7.  Renaming one key whose old name is in the map returns [true] and
    moves the value: afterwards the new name holds the value of the old
    one, whatever it held before, the old name is gone unless it is also
    the new name, and every other key is as before. *)
Theorem replaceKeysFromMap_moves_value old new v s :
  bitsToWrite s !! old = Some v ->
  exists m',
    replaceKeysFromMap [ {| oldKey := old; newKey := new |} ] s
      = (Returns true, set_bitsToWrite m' s)
    /\ forall k,
         m' !! k = if decide (k = new) then Some v
                   else if decide (k = old) then None
                   else bitsToWrite s !! k.
Proof.
  intros Hold. exists (<[new := v]> (delete old (bitsToWrite s))). split.
  - rewrite replaceKeysFromMap_cons. cbn [oldKey newKey].
    rewrite decide_True by by eexists. unfold rename_key. rewrite Hold.
    reflexivity.
  - intros k. repeat case_decide; subst.
    + apply lookup_insert_eq.
    + rewrite lookup_insert_ne by done. apply lookup_delete_eq.
    + by rewrite lookup_insert_ne, lookup_delete_ne.
Qed.

Lemma rename_key_size old new m : (size (rename_key old new m) <= size m)%nat.
Proof.
  unfold rename_key. destruct (m !! old) as [v|] eqn:Hold; [|done].
  rewrite map_size_insert, map_size_delete, Hold.
  assert (size m <> 0%nat) by (by apply (map_size_ne_0_lookup_2 m old)).
  destruct (delete old m !! new); cbn; lia.
Qed.

Lemma rename_keys_size pairs m : (size (rename_keys pairs m) <= size m)%nat.
Proof.
  revert m. induction pairs as [|iSet pairs IH]; intros m; cbn; [done |].
  case_decide; [|done]. etrans; [apply IH | apply rename_key_size].
Qed.

(** X8.  [replaceKeysFromMap] never adds an entry to the map, and leaves
    the counter and the database untouched.  It logs at most one message,
    a warning, and that exactly when its result is [false].  (The pairs
    are parameter sets that hold both keys; [getParameter] throws for any
    other, before the map is looked at.) *)
Theorem replaceKeysFromMap_never_grows_the_map pairs s :
  let run := replaceKeysFromMap pairs s in
  (size (bitsToWrite run.2) <= size (bitsToWrite s))%nat
  /\ nEventCalls_ run.2 = nEventCalls_ s
  /\ database run.2 = database s
  /\ exists logged,
       messages run.2 = messages s ++ logged
       /\ (length logged <= 1)%nat
       /\ Forall (fun l => severity l = LogWarning) logged
       /\ (logged <> [] <-> outcome_of run = Returns false).
Proof.
  cbv zeta. rewrite replaceKeysFromMap_result.
  destruct (first_missing pairs (bitsToWrite s)) as [iSet|]; cbn.
  - split_and!; [apply rename_keys_size | done | done |].
    eexists [_]. split_and!; [done | done | by repeat constructor | done].
  - split_and!; [apply rename_keys_size | done | done |].
    exists []. rewrite app_nil_r. split_and!; [done | cbn; lia | constructor |].
    split; [done | discriminate].
Qed.

End UpdateWriting.

(** *** At concrete configurations *)

Section UpdateFurtherExamples.
Import MachineInt AlCaRecoTriggerBitsRcdUpdate AlCaRecoScenarios.

(** X1 at two lists: new names are inserted; a name given twice throws
    after the first of the two has been inserted. *)
Lemma addTriggerLists_examples :
  (exists m',
     @addTriggerLists host_with_database [zero_bias] (store_with old_bits)
       = (Returns true, set_bitsToWrite m' (store_with old_bits))
     /\ (forall iSet, iSet ∈ [zero_bias] ->
           m' !! listName iSet = Some (join_paths (hltPaths iSet)))
     /\ (forall k, k ∉ map listName [zero_bias] -> m' !! k = old_bits !! k))
  /\ (exists pre iSet post,
        [zero_bias; zero_bias_again] = pre ++ iSet :: post
        /\ @addTriggerLists host_with_database [zero_bias; zero_bias_again] (store_with old_bits)
             = (Throws (already_in_map (listName iSet)),
                set_bitsToWrite (@add_lists host_with_database pre old_bits)
                  (store_with old_bits))).
Proof.
  split.
  - apply (proj1 (@addTriggerLists_inserts_or_throws host_with_database
                    [zero_bias] (store_with old_bits))).
    split; [apply NoDup_singleton |].
    intros l ->%list_elem_of_singleton. vm_compute. reflexivity.
  - destruct (proj1 (proj2 (@addTriggerLists_inserts_or_throws host_with_database
                              [zero_bias; zero_bias_again] (store_with old_bits))))
      as (pre & iSet & post & Hlists & _ & _ & _ & Hrun & _).
    + left. intros Hnd. apply NoDup_cons in Hnd as [Hnotin _]. set_solver.
    + by exists pre, iSet, post.
Defined.

(** X2 without the database service, at [cfg_update]. *)
Lemma nothing_written_without_service_example :
  (forall events s,
     database (@analyze_events host_without_database cfg_update events s).2 = database s)
  /\ (forall iSetup s,
        nEventCalls_ s = 0 ->
        @removal_and_insertion_fit host_without_database cfg_update
          (initial_bits cfg_update iSetup) ->
        outcome_of (@analyze host_without_database cfg_update iSetup s)
          = Throws service_not_available
        /\ bitsToWrite (@analyze host_without_database cfg_update iSetup s).2
             = rename_keys (alcarecoReplace_ cfg_update)
                 (@add_lists host_without_database (triggerListsAdd_ cfg_update)
                    (erase_keys (listNamesRemove_ cfg_update)
                       (initial_bits cfg_update iSetup)))).
Proof.
  apply (@nothing_written_without_service host_without_database cfg_update).
  reflexivity.
Defined.

Example nothing_written_without_service_run :
  @analyze host_without_database cfg_update old_bits constructed
  = (Throws service_not_available,
     {| nEventCalls_ := 1;
        bitsToWrite := {[ "SiStripCalZeroBias" := "HLT_ZeroBias_v*;HLT_Random_v*";
                          "TkAlMuonIsolatedPA" := "HLT_IsoMu24_v*" ]};
        messages := [uploading];
        database := [] |}).
Proof. vm_compute. reflexivity. Qed.

(** X4 at [cfg_empty_remove]. *)
Lemma startEmpty_example :
  (forall iSetup iSetup' s,
     @analyze host_with_database cfg_empty_remove iSetup s
       = @analyze host_with_database cfg_empty_remove iSetup' s)
  /\ (forall k keys iSetup s,
        nEventCalls_ s = 0 ->
        listNamesRemove_ cfg_empty_remove = k :: keys ->
        @analyze host_with_database cfg_empty_remove iSetup s
          = (Throws (cannot_remove k), set_bitsToWrite ∅ (set_nEventCalls 1 s))).
Proof.
  apply (@startEmpty_ignores_setup_and_cannot_remove host_with_database cfg_empty_remove).
  reflexivity.
Defined.


Example existing_list_replaced_payload :
  database (@analyze host_with_database
              (cfg_set_paths true (listName min_bias) (hltPaths min_bias))
              old_bits constructed).2
  = [write_of (cfg_set_paths true (listName min_bias) (hltPaths min_bias))
       (<[listName min_bias := join_paths (hltPaths min_bias)]> old_bits)].
Proof. vm_compute. reflexivity. Qed.

Example existing_list_not_removed_example :
  outcome_of (@analyze host_with_database
                (cfg_set_paths false (listName min_bias) (hltPaths min_bias))
                old_bits constructed)
  = Throws (already_in_map "TkAlMinBias").
Proof. vm_compute. reflexivity. Qed.

(** X6 at three events. *)
Lemma three_events_write_once :
  (exists writes,
     database (@analyze_events host_with_database cfg_update
                 [old_bits; old_bits; ∅] constructed).2
       = database constructed ++ writes
     /\ (length writes <= 1)%nat)
  /\ (forall iSetup later s1,
        [old_bits; old_bits; ∅] = iSetup :: later ->
        @analyze host_with_database cfg_update iSetup constructed = (Returns tt, s1) ->
        exists s',
          @analyze_events host_with_database cfg_update later s1 = (Returns tt, s')
          /\ database s' = database s1
          /\ bitsToWrite s' = bitsToWrite s1
          /\ messages s' = messages s1 ++ repeat write_only_once (length later)).
Proof.
  apply (@calls_within_counter_range_write_at_most_once host_with_database
           cfg_update [old_bits; old_bits; ∅] constructed).
  - reflexivity.
  - vm_compute. discriminate.
Defined.

Example three_events_messages :
  messages (@analyze_events host_with_database cfg_update
              [old_bits; old_bits; ∅] constructed).2
  = [uploading; done_for_runs 1 (-1); write_only_once; write_only_once].
Proof. vm_compute. reflexivity. Qed.

(** X7: renaming onto a name that is in the map overwrites its value. *)
Lemma rename_onto_existing_key :
  exists m',
    replaceKeysFromMap [ {| oldKey := "TkAlMinBias"; newKey := "TkAlMuonIsolated" |} ]
      (store_with old_bits)
      = (Returns true, set_bitsToWrite m' (store_with old_bits))
    /\ forall k,
         m' !! k = if decide (k = "TkAlMuonIsolated") then Some "HLT_MinBias_v*"
                   else if decide (k = "TkAlMinBias") then None
                   else old_bits !! k.
Proof.
  apply (replaceKeysFromMap_moves_value
           "TkAlMinBias" "TkAlMuonIsolated" "HLT_MinBias_v*" (store_with old_bits)).
  vm_compute. reflexivity.
Defined.

End UpdateFurtherExamples.

(* --------------------------------------------------------------------- *)
(** ** HLTDisplacedEgammaFilter: the track veto                            *)
(* --------------------------------------------------------------------- *)

Section FilterTrackVeto.
Import MachineInt HLTDisplacedEgammaFilter FilterScenarios.
Context `{Tools}.
Variable cfg : Config.

Implicit Types (ev : Event) (ref : Ref) (trks : list Track).

(** *** Events that the loop body cannot tell apart *)

Lemma candidates_loop_ext ev ev' cands st :
  (forall ref, loop_body cfg ev ref = loop_body cfg ev' ref) ->
  candidates_loop cfg ev cands st = candidates_loop cfg ev' cands st.
Proof.
  intros Hsame. revert st. induction cands as [|ref cands IH]; intros st; [done |].
  cbn [candidates_loop]. rewrite <- Hsame.
  destruct (loop_body cfg ev ref) as [[[|] log]|]; [apply IH | apply IH | done].
Qed.

Lemma hltFilter_ext ev ev' filterproduct0 :
  PrevFilterOutput ev = PrevFilterOutput ev' ->
  (forall ref, loop_body cfg ev ref = loop_body cfg ev' ref) ->
  hltFilter cfg ev filterproduct0 = hltFilter cfg ev' filterproduct0.
Proof.
  intros Hprev Hsame. unfold hltFilter, recoecalcands. rewrite <- Hprev.
  by rewrite (candidates_loop_ext ev ev' _ _ Hsame).
Qed.

Lemma candidates_loop_ext_on ev ev' cands st :
  (forall ref, ref ∈ cands -> loop_body cfg ev ref = loop_body cfg ev' ref) ->
  candidates_loop cfg ev cands st = candidates_loop cfg ev' cands st.
Proof.
  revert st. induction cands as [|ref cands IH]; intros st Hsame; [done |].
  cbn [candidates_loop]. rewrite <- Hsame by apply list_elem_of_here.
  destruct (loop_body cfg ev ref) as [[[|] log]|]; [| | done];
    apply IH; intros ref' Hin; apply Hsame; by apply list_elem_of_further.
Qed.

Lemma hltFilter_ext_on ev ev' filterproduct0 :
  PrevFilterOutput ev = PrevFilterOutput ev' ->
  (forall ref, ref ∈ recoecalcands ev' -> loop_body cfg ev ref = loop_body cfg ev' ref) ->
  hltFilter cfg ev filterproduct0 = hltFilter cfg ev' filterproduct0.
Proof.
  intros Hprev Hsame. unfold hltFilter.
  assert (recoecalcands ev = recoecalcands ev') as Hcands
    by (unfold recoecalcands; by rewrite Hprev).
  rewrite Hcands. by rewrite (candidates_loop_ext_on ev ev' _ _ Hsame).
Qed.

(** Two track lists on which the veto decides alike give the same result
    for every candidate. *)
Lemma loop_body_with_tracks ev trks trks' :
  (forall ref, (count_tracks cfg ref trks 0 >? maxTrkCut cfg)
               = (count_tracks cfg ref trks' 0 >? maxTrkCut cfg)) ->
  forall ref, loop_body cfg (with_tracks trks ev) ref = loop_body cfg (with_tracks trks' ev) ref.
Proof.
  intros Hveto ref. unfold loop_body. cbn [tracks rechitsEB_ rechitsEE_ with_tracks].
  by rewrite Hveto.
Qed.

(** *** The counting loop *)



Lemma count_tracks_negative_cut ref trks :
  maxTrkCut cfg < 0 -> (count_tracks cfg ref trks 0 >? maxTrkCut cfg) = true.
Proof.
  intros Hcut. induction trks as [|it trks IH]; cbn [count_tracks].
  - apply Z.gtb_lt. lia.
  - destruct (Double.lt (pt it) (trkPtCut cfg)); [done |].
    destruct (Double.lt _ (trkdRCut cfg)).
    + change (int_incr 0) with 1.
      destruct (Z.gtb_spec 1 (maxTrkCut cfg)); [apply Z.gtb_lt; lia | lia].
    + destruct (Z.gtb_spec 0 (maxTrkCut cfg)); [apply Z.gtb_lt; lia | lia].
Qed.

Lemma count_tracks_without_soft_track ref before it after nTrk :
  Double.lt (pt it) (trkPtCut cfg) = true ->
  count_tracks cfg ref (before ++ it :: after) nTrk
    = count_tracks cfg ref (before ++ after) nTrk.
Proof.
  intros Hsoft. revert nTrk. induction before as [|it' before IH]; intros nTrk.
  - cbn. by rewrite Hsoft.
  - cbn [app count_tracks].
    destruct (Double.lt (pt it') (trkPtCut cfg)); [apply IH |].
    destruct (_ >? _); [done | apply IH].
Qed.

(** X10.  A track with [pt < trkPtCut] plays no role, wherever it stands
    in the collection and however close to a candidate it is: the filter
    gives the same result without it. *)
Theorem soft_track_does_not_matter ev before it after filterproduct0 :
  (pt it < trkPtCut cfg)%Q ->
  hltFilter cfg (with_tracks (before ++ it :: after) ev) filterproduct0
    = hltFilter cfg (with_tracks (before ++ after) ev) filterproduct0.
Proof.
  intros Hsoft%Double_lt_iff. apply hltFilter_ext; [done |].
  apply loop_body_with_tracks. intros ref.
  by rewrite count_tracks_without_soft_track.
Qed.

Lemma filter_length_Permutation {A} (f : A -> bool) (l l' : list A) :
  l ≡ₚ l' -> length (List.filter f l) = length (List.filter f l').
Proof.
  induction 1 as [|x l l' _ IH|x y l|l l' l'' _ IH1 _ IH2]; cbn.
  - done.
  - destruct (f x); cbn; by rewrite IH.
  - by destruct (f x), (f y).
  - by rewrite IH1.
Qed.

(** X11.  Although the counting loop stops at the first track that brings
    the count above [maxTrkCut], the order of the tracks in the collection
    has no influence on the result of the filter. *)
Theorem track_order_does_not_matter ev trks trks' filterproduct0 :
  trks ≡ₚ trks' ->
  Z.of_nat (length trks) <= INT_MAX ->
  hltFilter cfg (with_tracks trks' ev) filterproduct0
    = hltFilter cfg (with_tracks trks ev) filterproduct0.
Proof.
  intros Hperm Hmax. apply hltFilter_ext; [done |].
  apply loop_body_with_tracks. intros ref.
  rewrite !count_tracks_above; try lia.
  - unfold nearby_tracks. by rewrite (filter_length_Permutation _ _ _ Hperm).
  - rewrite <- (Permutation_length Hperm). lia.
Qed.

End FilterTrackVeto.

(* --------------------------------------------------------------------- *)
(** ** HLTDisplacedEgammaFilter: the decision and the product              *)
(* --------------------------------------------------------------------- *)

Section FilterDecision.
Import MachineInt HLTDisplacedEgammaFilter FilterScenarios.
Context `{Tools}.
Variable cfg : Config.

Implicit Types (ev : Event) (ref : Ref) (cands : list Ref).

(** *** What a finished loop over the candidates has done *)

Lemma candidates_loop_inv ev cands st st' :
  candidates_loop cfg ev cands st = Some st' ->
  let passing := List.filter (passes_all_cuts cfg ev) cands in
  photons (filterproduct st') = photons (filterproduct st) ++ as_clusters passing
  /\ collectionTags (filterproduct st') = collectionTags (filterproduct st)
  /\ (0 <= n st -> n st + Z.of_nat (length passing) <= INT_MAX ->
      n st' = n st + Z.of_nat (length passing)).
Proof.
  revert st. induction cands as [|ref cands IH]; intros st.
  - cbn. intros [= <-]. rewrite app_nil_r. split_and!; [done | done | lia].
  - cbn [candidates_loop List.filter].
    destruct (loop_body cfg ev ref) as [[[|] log]|] eqn:Hrun; [| |done].
    + rewrite (loop_body_not_passed _ _ _ _ Hrun).
      intros (Hphotons & Htags & Hn)%IH. cbn in *. done.
    + rewrite (proj1 (loop_body_passed cfg ev ref)) by by eexists.
      intros (Hphotons & Htags & Hn)%IH. cbn in *.
      split_and!; [by rewrite Hphotons, <- app_assoc | done |].
      intros Hpos Hmax. rewrite int_incr_small in Hn by lia. rewrite Hn by lia. lia.
Qed.

Lemma hltFilter_inv ev filterproduct0 res :
  hltFilter cfg ev filterproduct0 = Some res ->
  let passing := List.filter (passes_all_cuts cfg ev) (recoecalcands ev) in
  photons (product res) = photons filterproduct0 ++ as_clusters passing
  /\ collectionTags (product res)
       = collectionTags filterproduct0 ++ (if saveTags cfg then [l1EGTag_ cfg] else [])
  /\ (Z.of_nat (length passing) <= INT_MAX ->
      accept res = (Z.of_nat (length passing) >=? ncandcut_ cfg)).
Proof.
  unfold hltFilter.
  destruct (candidates_loop _ _ _ _) as [st'|] eqn:Hloop; [|done].
  intros [= <-]. apply candidates_loop_inv in Hloop as (Hphotons & Htags & Hn).
  cbn in *. split_and!.
  - rewrite Hphotons. by destruct (saveTags cfg).
  - rewrite Htags. destruct (saveTags cfg); [done | by rewrite app_nil_r].
  - intros Hmax. rewrite Hn by lia. done.
Qed.

Lemma candidates_loop_none ev cands st :
  candidates_loop cfg ev cands st = None
  <-> exists ref, ref ∈ cands /\ loop_body cfg ev ref = None.
Proof.
  revert st. induction cands as [|ref cands IH]; intros st.
  - cbn. split; [done | intros (ref & Hin & _); by apply elem_of_nil in Hin].
  - cbn [candidates_loop].
    destruct (loop_body cfg ev ref) as [[[|] log]|] eqn:Hrun.
    + rewrite IH. split.
      * intros (ref' & Hin & Hnone). exists ref'. split; [by right | done].
      * intros (ref' & [->|Hin]%elem_of_cons & Hnone); [congruence | by exists ref'].
    + rewrite IH. split.
      * intros (ref' & Hin & Hnone). exists ref'. split; [by right | done].
      * intros (ref' & [->|Hin]%elem_of_cons & Hnone); [congruence | by exists ref'].
    + split; [| done]. intros _. exists ref. split; [by left | done].
Qed.

Lemma loop_body_none ev ref :
  loop_body cfg ev ref = None <-> dereferences_end cfg ev ref.
Proof.
  rewrite loop_body_in_order. unfold dereferences_end, cut_order.
  cbn [apply_in_order skips_at].
  destruct (EBOnly cfg && _); [by split; [| intros [[= ] _]] |].
  destruct (Double.lt (sMin _) _ || _); [by split; [| intros (_ & [= ] & _)] |].
  destruct (Double.lt (sMaj _) _ || _); [by split; [| intros (_ & _ & [= ] & _)] |].
  destruct (seed_rechit ev ref) as [seedRH|]; cbn.
  - split; [| by intros (_ & _ & _ & ?)].
    destruct (Double.lt (time seedRH) _ || _); [done |].
    by destruct (Z.gtb _ _).
  - done.
Qed.

Lemma hltFilter_undefined_iff_seed_rechit_missing_aux ev filterproduct0 :
  hltFilter cfg ev filterproduct0 = None
  <-> exists ref, ref ∈ recoecalcands ev /\ loop_body cfg ev ref = None.
Proof.
  unfold hltFilter.
  destruct (candidates_loop _ _ _ _) as [st'|] eqn:Hloop.
  - split; [done |]. intros Hnone.
    eapply (proj2 (candidates_loop_none ev (recoecalcands ev) _)) in Hnone.
    rewrite Hnone in Hloop. done.
  - split; [| done]. intros _. by apply candidates_loop_none in Hloop.
Qed.

(** X12.  [hltFilter] dereferences the [end()] iterator of the rechit
    collection, and then has no defined result, exactly when some candidate
    survives the eta and the shape cuts while the crystal returned by
    [getMaximum] has no rechit in the collection chosen for it. *)
Theorem hltFilter_undefined_iff_seed_rechit_missing ev filterproduct0 :
  hltFilter cfg ev filterproduct0 = None
  <-> exists ref, ref ∈ recoecalcands ev /\ dereferences_end cfg ev ref.
Proof.
  rewrite hltFilter_undefined_iff_seed_rechit_missing_aux.
  split; intros (ref & Hin & Hnone); exists ref; (split; [done |]);
    by apply loop_body_none.
Qed.

(** X13.  The collection tag [l1EGTag_] is added to the filter product
    once per call when [saveTags()] holds, also when no candidate passes
    and the event is rejected; nothing else changes the tags. *)
Theorem collection_tag_added_once ev filterproduct0 res :
  hltFilter cfg ev filterproduct0 = Some res ->
  collectionTags (product res)
    = collectionTags filterproduct0 ++ (if saveTags cfg then [l1EGTag_ cfg] else []).
Proof. intros Hres. by apply hltFilter_inv in Hres as (_ & Htags & _). Qed.

(** X14.  The decision is bounded by the input: an accepted event has at
    least [ncandcut_] candidates, a non-positive [ncandcut_] accepts every
    event, also one without candidates, and the product never grows by
    more objects than there were candidates. *)
Theorem decision_bounded_by_input ev filterproduct0 res :
  Z.of_nat (length (recoecalcands ev)) <= INT_MAX ->
  hltFilter cfg ev filterproduct0 = Some res ->
  (accept res = true -> ncandcut_ cfg <= Z.of_nat (length (recoecalcands ev)))
  /\ (ncandcut_ cfg <= 0 -> accept res = true)
  /\ (length (photons (product res))
      <= length (photons filterproduct0) + length (recoecalcands ev))%nat.
Proof.
  intros Hmax Hres. apply hltFilter_inv in Hres as (Hphotons & _ & Hacc).
  assert (length (List.filter (passes_all_cuts cfg ev) (recoecalcands ev))
          <= length (recoecalcands ev))%nat as Hlen by apply filter_length_le.
  rewrite Hacc by lia. rewrite Z.geb_le. split_and!; [lia | lia |].
  rewrite Hphotons, length_app. unfold as_clusters. rewrite length_map. lia.
Qed.

(** X15.  With a negative [maxTrkCut] the track veto rejects every
    candidate that reaches it, also in an event without tracks: nothing is
    added to the product, and the event is accepted only if [ncandcut_] is
    not positive. *)
Theorem negative_maxTrkCut_rejects_every_candidate ev filterproduct0 res :
  maxTrkCut cfg < 0 ->
  hltFilter cfg ev filterproduct0 = Some res ->
  (forall ref, passes_all_cuts cfg ev ref = false)
  /\ photons (product res) = photons filterproduct0
  /\ (accept res = true <-> ncandcut_ cfg <= 0).
Proof.
  intros Hcut Hres.
  assert (forall ref, passes_all_cuts cfg ev ref = false) as Hnone.
  { intros ref. unfold passes_all_cuts, cut_order. cbn [forallb skips_at].
    rewrite (count_tracks_negative_cut cfg ref (tracks ev) Hcut).
    rewrite (bool_decide_eq_false_2 (Some true = Some false)) by done.
    by rewrite !andb_false_r. }
  assert (List.filter (passes_all_cuts cfg ev) (recoecalcands ev) = []) as Hempty.
  { induction (recoecalcands ev) as [|ref cands IH]; [done |].
    cbn [List.filter]. by rewrite Hnone. }
  apply hltFilter_inv in Hres as (Hphotons & _ & Hacc).
  rewrite Hempty in Hphotons, Hacc. cbn in Hphotons, Hacc.
  split_and!; [done | by rewrite Hphotons, app_nil_r |].
  rewrite Hacc by (unfold INT_MAX; lia). rewrite Z.geb_le. done.
Qed.

(** X16.  A window whose lower bound is above its upper bound lets no
    number through: with such a configuration no candidate whose moments
    and seed time are numbers passes, in any event.  (A NaN is let through
    by every window, also by an empty one.) *)
Theorem empty_window_rejects_every_candidate ev ref log :
  some_window_is_empty cfg ->
  moments_and_time_are_numbers ev ref ->
  loop_body cfg ev ref <> Some (Passed, log).
Proof.
  intros Hempty (HsMin & HsMaj & Htime) Hrun.
  assert (passes_all_cuts cfg ev ref = true) as Hpass
    by (apply loop_body_passed; by eexists).
  unfold passes_all_cuts, cut_order in Hpass. cbn [forallb] in Hpass.
  repeat (apply andb_prop in Hpass as [?%bool_decide_eq_true Hpass]).
  assert (forall lo hi x,
            (hi < lo)%Q -> x <> Double.NaN ->
            Double.lt x lo || Double.gt x hi = false -> False) as Hnone.
  { intros lo hi x Hw Hx [HNaN|Hin]%outside_false_iff; [done |].
    destruct x as [|q]; [done |]. destruct Hin as [Hlo Hhi].
    apply (Qlt_not_le _ _ Hw). by eapply Qle_trans. }
  destruct Hempty as [Hw|[Hw|Hw]].
  - assert (skips_at cfg ev ref SMinCut = Some false) as [= Hin] by done.
    exact (Hnone _ _ _ Hw HsMin Hin).
  - assert (skips_at cfg ev ref SMajCut = Some false) as [= Hin] by done.
    exact (Hnone _ _ _ Hw HsMaj Hin).
  - assert (skips_at cfg ev ref SeedTimeCut = Some false) as Hcut by done.
    cbn [skips_at] in Hcut. destruct (seed_rechit ev ref) as [seedRH|] eqn:Hseed; [|done].
    cbn in Hcut. injection Hcut as Hin.
    exact (Hnone _ _ _ Hw (Htime _ eq_refl) Hin).
Qed.

(** *** What the result does not depend on *)

Lemma loop_body_barrel_only ev rechits ref :
  EBOnly cfg = true ->
  eta ref <> Double.NaN ->
  loop_body cfg (with_rechitsEE rechits ev) ref = loop_body cfg ev ref.
Proof.
  intros HEB Heta. unfold loop_body.
  cbn [tracks rechitsEB_ rechitsEE_ with_rechitsEE]. rewrite HEB. cbn [andb].
  destruct (eta ref) as [|q]; [done |].
  unfold Double.ge, Double.le, Double.lt, Double.abs.
  by destruct (Qle_bool 1.479 (Qabs q)).
Qed.

(** X17.  With [EBOnly] the endcap rechit collection is used for no
    candidate whose eta is a number: when no candidate of the event has a
    NaN eta, the result of the filter is the same whatever that collection
    holds.  (A candidate with a NaN eta is not skipped by the eta cut, and
    the endcap collection is chosen for it.) *)
Theorem EBOnly_uses_endcap_rechits_for_NaN_eta_only ev rechits filterproduct0 :
  EBOnly cfg = true ->
  (forall ref, ref ∈ recoecalcands ev -> eta ref <> Double.NaN) ->
  hltFilter cfg (with_rechitsEE rechits ev) filterproduct0 = hltFilter cfg ev filterproduct0.
Proof.
  intros HEB Heta. apply hltFilter_ext_on; [done |].
  intros ref Hin. apply loop_body_barrel_only; [done |].
  apply Heta. exact Hin.
Qed.

Lemma count_tracks_with_ncandcut c ref trks nTrk :
  count_tracks (with_ncandcut c cfg) ref trks nTrk = count_tracks cfg ref trks nTrk.
Proof.
  revert nTrk. induction trks as [|it trks IH]; intros nTrk; [done |].
  cbn [count_tracks trkPtCut trkdRCut maxTrkCut with_ncandcut].
  destruct (Double.lt (pt it) _); [apply IH |].
  destruct (_ >? _); [done | apply IH].
Qed.

Lemma loop_body_with_ncandcut c ev ref :
  loop_body (with_ncandcut c cfg) ev ref = loop_body cfg ev ref.
Proof. unfold loop_body. rewrite count_tracks_with_ncandcut. done. Qed.

Lemma candidates_loop_with_ncandcut c ev cands st :
  candidates_loop (with_ncandcut c cfg) ev cands st = candidates_loop cfg ev cands st.
Proof.
  revert st. induction cands as [|ref cands IH]; intros st; [done |].
  cbn [candidates_loop]. rewrite loop_body_with_ncandcut.
  destruct (loop_body cfg ev ref) as [[[|] log]|]; [apply IH | apply IH | done].
Qed.

(** X18.  [ncandcut_] enters the decision only: the filter product and the
    cuts evaluated are the same for every value of it, so the product holds
    the passing candidates of a rejected event as well; and an event
    accepted with some [ncandcut_] is accepted with every smaller one. *)
Theorem ncandcut_only_changes_the_decision c ev filterproduct0 :
  product <$> hltFilter (with_ncandcut c cfg) ev filterproduct0
    = product <$> hltFilter cfg ev filterproduct0
  /\ cuts_evaluated <$> hltFilter (with_ncandcut c cfg) ev filterproduct0
       = cuts_evaluated <$> hltFilter cfg ev filterproduct0
  /\ (c <= ncandcut_ cfg ->
      accept <$> hltFilter cfg ev filterproduct0 = Some true ->
      accept <$> hltFilter (with_ncandcut c cfg) ev filterproduct0 = Some true).
Proof.
  unfold hltFilter. rewrite candidates_loop_with_ncandcut.
  cbn [saveTags l1EGTag_ ncandcut_ with_ncandcut].
  destruct (candidates_loop _ _ _ _) as [st'|]; cbn; [| done].
  split_and!; [done | done |].
  intros Hc [= Hacc%Z.geb_le]. f_equal. apply Z.geb_le. lia.
Qed.

Lemma filter_Permutation_bool {A} (f : A -> bool) (l l' : list A) :
  l ≡ₚ l' -> List.filter f l ≡ₚ List.filter f l'.
Proof.
  induction 1 as [|x l l' _ IH|x y l|l l' l'' _ IH1 _ IH2]; cbn.
  - done.
  - destruct (f x); [by constructor | done].
  - destruct (f x), (f y); try done. apply perm_swap.
  - by etrans.
Qed.

Lemma recoecalcands_Permutation ev objects objects' :
  objects ≡ₚ objects' ->
  recoecalcands (with_objects objects ev) ≡ₚ recoecalcands (with_objects objects' ev).
Proof.
  intros Hperm. unfold recoecalcands, getObjects. cbn [PrevFilterOutput photons with_objects].
  assert (forall id, map snd (List.filter (fun o : TriggerObjectType * Ref =>
                                             bool_decide (o.1 = id)) objects)
                     ≡ₚ map snd (List.filter (fun o => bool_decide (o.1 = id)) objects'))
    as Hobj.
  { intros id. by apply Permutation_map, filter_Permutation_bool. }
  pose proof (Hobj TriggerCluster) as Hclusters.
  destruct (map snd (List.filter _ objects)) as [|ref refs] eqn:Hfirst.
  - apply Permutation_nil in Hclusters. rewrite Hclusters. cbn. apply Hobj.
  - rewrite bool_decide_eq_false_2 by done.
    rewrite bool_decide_eq_false_2; [done |].
    intros Hnil. rewrite Hnil in Hclusters. by apply Permutation_nil_r in Hclusters.
Qed.

(** X19.  The order in which the previous filter stored the candidates has
    no influence on the decision, and the product receives the same
    candidates, in the order of the input. *)
Theorem candidate_order_does_not_matter ev objects objects' filterproduct0 res :
  objects ≡ₚ objects' ->
  Z.of_nat (length objects) <= INT_MAX ->
  hltFilter cfg (with_objects objects ev) filterproduct0 = Some res ->
  exists res',
    hltFilter cfg (with_objects objects' ev) filterproduct0 = Some res'
    /\ accept res' = accept res
    /\ photons (product res') ≡ₚ photons (product res).
Proof.
  intros Hperm Hmax Hres.
  pose proof (recoecalcands_Permutation ev _ _ Hperm) as Hcands.
  assert (forall ref, loop_body cfg (with_objects objects ev) ref
                      = loop_body cfg (with_objects objects' ev) ref) as Hbody by done.
  assert (forall ref, passes_all_cuts cfg (with_objects objects ev) ref
                      = passes_all_cuts cfg (with_objects objects' ev) ref) as Hpass by done.
  destruct (hltFilter cfg (with_objects objects' ev) filterproduct0) as [res'|] eqn:Hres'.
  2:{ apply hltFilter_undefined_iff_seed_rechit_missing_aux in Hres'
        as (ref & Hin & Hnone).
      rewrite <- Hbody in Hnone. rewrite <- Hcands in Hin.
      assert (hltFilter cfg (with_objects objects ev) filterproduct0 = None)
        by (apply hltFilter_undefined_iff_seed_rechit_missing_aux; by exists ref).
      congruence. }
  exists res'. split; [done |].
  apply hltFilter_inv in Hres as (Hphotons & _ & Hacc).
  apply hltFilter_inv in Hres' as (Hphotons' & _ & Hacc').
  assert (List.filter (passes_all_cuts cfg (with_objects objects' ev))
            (recoecalcands (with_objects objects' ev))
          ≡ₚ List.filter (passes_all_cuts cfg (with_objects objects ev))
               (recoecalcands (with_objects objects ev))) as Hpassing.
  { rewrite <- (filter_Permutation_bool _ _ _ Hcands).
    erewrite List.filter_ext; [done |]. intros ref. by rewrite Hpass. }
  assert (length (recoecalcands (with_objects objects ev)) <= length objects)%nat as Hlen.
  { unfold recoecalcands, getObjects. cbn [PrevFilterOutput photons with_objects].
    case_bool_decide; rewrite length_map; apply filter_length_le. }
  assert (length (List.filter (passes_all_cuts cfg (with_objects objects ev))
                    (recoecalcands (with_objects objects ev)))
          <= length (recoecalcands (with_objects objects ev)))%nat
    by apply filter_length_le.
  split.
  - rewrite Hacc, Hacc' by (rewrite ?(Permutation_length Hpassing); lia).
    by rewrite (Permutation_length Hpassing).
  - rewrite Hphotons, Hphotons'. apply Permutation_app_head.
    by apply Permutation_map.
Qed.

End FilterDecision.

(* --------------------------------------------------------------------- *)
(** ** HLTDisplacedEgammaFilter: construction                              *)
(* --------------------------------------------------------------------- *)

Section FilterConstructionProperties.
Import AlCaRecoTriggerBitsRcdUpdate HLTDisplacedEgammaFilter FilterConstruction.

Lemma Outcome_bind_returns {A B} (c : Outcome A) (f : A -> Outcome B) b :
  c ≫= f = Returns b -> exists a, c = Returns a /\ f a = Returns b.
Proof. destruct c as [a|e]; [by exists a | done]. Qed.

Lemma getParameter_int_returns iConfig name z :
  getParameter_int iConfig name = Returns z -> iConfig !! name = Some (PInt z).
Proof.
  unfold getParameter_int. destruct (iConfig !! name) as [[]|]; congruence.
Qed.

Lemma getParameter_double_returns iConfig name x :
  getParameter_double iConfig name = Returns x -> iConfig !! name = Some (PDouble x).
Proof.
  unfold getParameter_double. destruct (iConfig !! name) as [[]|]; congruence.
Qed.

Lemma getParameter_bool_returns iConfig name b :
  getParameter_bool iConfig name = Returns b -> iConfig !! name = Some (PBool b).
Proof.
  unfold getParameter_bool. destruct (iConfig !! name) as [[]|]; congruence.
Qed.

Lemma getParameter_InputTag_returns iConfig name tag :
  getParameter_InputTag iConfig name = Returns tag -> iConfig !! name = Some (PInputTag tag).
Proof.
  unfold getParameter_InputTag. destruct (iConfig !! name) as [[]|]; congruence.
Qed.

Lemma conforms_lookup iConfig description name default :
  conforms iConfig description ->
  (name, default) ∈ description ->
  exists v, iConfig !! name = Some v /\ same_type v default.
Proof. intros Hconf Hin. by apply Hconf. Qed.

(** Reads one parameter in a run of the constructor that returned. *)
Ltac read_parameter Hrun :=
  let Hget := fresh "Hget" in
  apply Outcome_bind_returns in Hrun as (? & Hget & Hrun);
  first [ apply getParameter_int_returns in Hget
        | apply getParameter_double_returns in Hget
        | apply getParameter_bool_returns in Hget
        | apply getParameter_InputTag_returns in Hget ].

(** Takes one parameter from a parameter set that conforms. *)
Ltac have_parameter Hconf name default :=
  let v := fresh "v" in
  let Hv := fresh "Hv" in
  let Ht := fresh "Ht" in
  destruct (conforms_lookup _ _ name default Hconf) as (v & Hv & Ht);
  [unfold fillDescriptions; repeat first [by apply list_elem_of_here | apply list_elem_of_further] |];
  destruct v; try (by destruct Ht); clear Ht.

(** X20.  The constructor returns exactly for the parameter sets that hold
    every parameter of [fillDescriptions] with the type of its default:
    each parameter the constructor reads is described with the type it is
    read with, and each described parameter is read.  For any other
    parameter set the constructor throws. *)
Theorem constructor_accepts_what_fillDescriptions_describes saveTags0 iConfig :
  (exists members, HLTDisplacedEgammaFilter saveTags0 iConfig = Returns members)
  <-> conforms iConfig fillDescriptions.
Proof.
  split.
  - intros [members Hrun]. unfold HLTDisplacedEgammaFilter in Hrun.
    do 16 read_parameter Hrun.
    intros name default Hin. unfold fillDescriptions in Hin.
    repeat (apply elem_of_cons in Hin as [[= -> ->]|Hin];
            [by eexists; split; [eassumption |] |]).
    by apply elem_of_nil in Hin.
  - intros Hconf. unfold HLTDisplacedEgammaFilter.
    have_parameter Hconf "inputTag" (PInputTag "hltEGRegionalL1SingleEG22").
    have_parameter Hconf "l1EGCand" (PInputTag "hltL1IsoRecoEcalCandidate").
    have_parameter Hconf "RecHitsEB" (PInputTag "hltEcalRecHit:EcalRecHitsEB").
    have_parameter Hconf "RecHitsEE" (PInputTag "hltEcalRecHit:EcalRecHitsEE").
    have_parameter Hconf "inputTrack"
      (PInputTag "hltL1SeededEgammaRegionalCTFFinalFitWithMaterial").
    have_parameter Hconf "ncandcut" (PInt 1).
    have_parameter Hconf "EBOnly" (PBool false).
    have_parameter Hconf "sMin_min" (PDouble 0.1).
    have_parameter Hconf "sMin_max" (PDouble 0.4).
    have_parameter Hconf "sMaj_min" (PDouble 0.0).
    have_parameter Hconf "sMaj_max" (PDouble 999.0).
    have_parameter Hconf "seedTimeMin" (PDouble (-25.0)).
    have_parameter Hconf "seedTimeMax" (PDouble 25.0).
    have_parameter Hconf "maxTrackCut" (PInt 0).
    have_parameter Hconf "trackPtCut" (PDouble 3.0).
    have_parameter Hconf "trackdRCut" (PDouble 0.5).
    unfold getParameter_int, getParameter_double, getParameter_bool, getParameter_InputTag.
    repeat match goal with Hv : iConfig !! _ = Some _ |- _ => rewrite Hv; clear Hv end.
    cbn. by eexists.
Qed.

(** The default values themselves give the default configuration. *)
Example constructor_with_defaults :
  HLTDisplacedEgammaFilter true defaults
  = Returns {| inputTag_ := "hltEGRegionalL1SingleEG22";
               inputTrk := "hltL1SeededEgammaRegionalCTFFinalFitWithMaterial";
               rechitsEB := "hltEcalRecHit:EcalRecHitsEB";
               rechitsEE := "hltEcalRecHit:EcalRecHitsEE";
               cuts := cfg_default |}.
Proof. vm_compute. reflexivity. Qed.

(** A parameter set without [maxTrackCut] is refused. *)
Example constructor_without_maxTrackCut :
  HLTDisplacedEgammaFilter true (delete "maxTrackCut" defaults)
  = Throws (missing_parameter "maxTrackCut").
Proof. vm_compute. reflexivity. Qed.

End FilterConstructionProperties.

(* --------------------------------------------------------------------- *)
(** ** HLTDisplacedEgammaFilter: the further properties at concrete events *)
(* --------------------------------------------------------------------- *)

Section FilterFurtherExamples.
Import MachineInt HLTDisplacedEgammaFilter FilterScenarios.


Example count_tracks_capped_example_value :
  @count_tracks example_tools (with_maxTrkCut 1 cfg_default) barrel_candidate
    [hard_track; far_track; hard_track; hard_track] 0 = 2
  /\ length (@nearby_tracks example_tools (with_maxTrkCut 1 cfg_default) barrel_candidate
               [hard_track; far_track; hard_track; hard_track]) = 3%nat.
Proof. split; vm_compute; reflexivity. Qed.

(** X10 at the example event, whose second track is soft. *)
Lemma soft_track_example :
  @hltFilter example_tools cfg_default
     (with_tracks ([far_track] ++ soft_track :: []) example_event) no_product
  = @hltFilter example_tools cfg_default
      (with_tracks ([far_track] ++ []) example_event) no_product.
Proof.
  apply (@soft_track_does_not_matter example_tools cfg_default example_event
           [far_track] soft_track [] no_product).
  vm_compute. reflexivity.
Defined.

(** X11 at the crowded event, with its tracks in reverse order. *)
Lemma track_order_example :
  @hltFilter example_tools cfg_default
     (with_tracks [soft_track; far_track; hard_track] crowded_event) no_product
  = @hltFilter example_tools cfg_default
      (with_tracks [hard_track; far_track; soft_track] crowded_event) no_product.
Proof.
  apply (@track_order_does_not_matter example_tools cfg_default crowded_event
           [hard_track; far_track; soft_track] [soft_track; far_track; hard_track]
           no_product).
  - apply (Permutation_rev [hard_track; far_track; soft_track]).
  - vm_compute. discriminate.
Defined.

(** X12 at an event with a candidate whose seed crystal has no rechit. *)
Example orphan_event_undefined :
  @hltFilter example_tools cfg_default orphan_event no_product = None
  /\ orphan_candidate ∈ @recoecalcands orphan_event
  /\ @dereferences_end example_tools cfg_default orphan_event orphan_candidate.
Proof.
  split; [vm_compute; reflexivity |]. split.
  - apply list_elem_of_further, list_elem_of_here.
  - repeat split; vm_compute; reflexivity.
Qed.

(** X13 at the example event. *)
Lemma collection_tag_example :
  collectionTags (product example_result)
  = collectionTags no_product
      ++ (if saveTags cfg_default then [l1EGTag_ cfg_default] else []).
Proof.
  apply (@collection_tag_added_once example_tools cfg_default example_event
           no_product example_result).
  vm_compute. reflexivity.
Defined.

(** X14 at the example event. *)
Lemma decision_bounded_example :
  (accept example_result = true ->
   ncandcut_ cfg_default <= Z.of_nat (length (@recoecalcands example_event)))
  /\ (ncandcut_ cfg_default <= 0 -> accept example_result = true)
  /\ (length (photons (product example_result))
      <= length (photons no_product) + length (@recoecalcands example_event))%nat.
Proof.
  apply (@decision_bounded_by_input example_tools cfg_default example_event
           no_product example_result).
  - vm_compute. discriminate.
  - vm_compute. reflexivity.
Defined.

(** X15 at the example event with [maxTrackCut = -1]. *)
Lemma negative_maxTrkCut_example :
  (forall ref,
     @passes_all_cuts example_tools (with_maxTrkCut (-1) cfg_default) example_event ref
     = false)
  /\ photons (product vetoed_result) = photons no_product
  /\ (accept vetoed_result = true <-> ncandcut_ (with_maxTrkCut (-1) cfg_default) <= 0).
Proof.
  apply (@negative_maxTrkCut_rejects_every_candidate example_tools
           (with_maxTrkCut (-1) cfg_default) example_event no_product vetoed_result).
  - vm_compute. reflexivity.
  - vm_compute. reflexivity.
Defined.

(** X16 for a timing window from 25 to -25 ns. *)
Lemma empty_window_example :
  @loop_body example_tools cfg_empty_window example_event barrel_candidate
  <> Some (Passed, all_passed).
Proof.
  apply (@empty_window_rejects_every_candidate example_tools cfg_empty_window
           example_event barrel_candidate all_passed).
  - right. right. vm_compute. reflexivity.
  - split; [discriminate |]. split; [discriminate |].
    intros seedRH [= <-]. discriminate.
Defined.

(** A NaN time passes the empty window. *)
Example NaN_time_passes_empty_window :
  @loop_body example_tools cfg_empty_window nan_time_event barrel_candidate
  = Some (Passed, all_passed).
Proof. vm_compute. reflexivity. Qed.

(** X17 at the example event without endcap rechits. *)
Lemma EBOnly_example :
  @hltFilter example_tools cfg_barrel_only (with_rechitsEE [] example_event) no_product
  = @hltFilter example_tools cfg_barrel_only example_event no_product.
Proof.
  apply (@EBOnly_uses_endcap_rechits_for_NaN_eta_only example_tools cfg_barrel_only
           example_event [] no_product).
  - reflexivity.
  - intros ref Hin.
    repeat (apply elem_of_cons in Hin as [->|Hin]; [discriminate |]).
    by apply elem_of_nil in Hin.
Defined.

(** With [EBOnly] and a candidate whose eta is a NaN the endcap rechits
    are used: the candidate passes with them, and the filter dereferences
    [end()] without them. *)
Example NaN_eta_uses_endcap_rechits_with_EBOnly :
  accept <$> @hltFilter example_tools cfg_barrel_only nan_eta_event no_product = Some true
  /\ @hltFilter example_tools cfg_barrel_only (with_rechitsEE [] nan_eta_event) no_product
     = None.
Proof. split; vm_compute; reflexivity. Qed.

(** Without [EBOnly] the endcap rechits are used: the filter dereferences
    [end()] for the endcap candidate when they are missing. *)
Example endcap_rechits_used_without_EBOnly :
  @hltFilter example_tools cfg_default (with_rechitsEE [] example_event) no_product = None.
Proof. vm_compute. reflexivity. Qed.

(** X19 at the example event, with its candidates in reverse order. *)
Lemma candidate_order_example :
  exists res',
    @hltFilter example_tools cfg_default
       (with_objects [(TriggerPhoton, endcap_candidate); (TriggerPhoton, late_candidate);
                      (TriggerPhoton, barrel_candidate)] example_event) no_product
    = Some res'
    /\ accept res' = accept example_result
    /\ photons (product res') ≡ₚ photons (product example_result).
Proof.
  apply (@candidate_order_does_not_matter example_tools cfg_default example_event
           [(TriggerPhoton, barrel_candidate); (TriggerPhoton, late_candidate);
            (TriggerPhoton, endcap_candidate)]
           [(TriggerPhoton, endcap_candidate); (TriggerPhoton, late_candidate);
            (TriggerPhoton, barrel_candidate)]
           no_product example_result).
  - apply (Permutation_rev [(TriggerPhoton, barrel_candidate);
                            (TriggerPhoton, late_candidate);
                            (TriggerPhoton, endcap_candidate)]).
  - vm_compute. discriminate.
  - vm_compute. reflexivity.
Defined.

End FilterFurtherExamples.

(* --------------------------------------------------------------------- *)
(** ** The script that regenerates the HLT tables: inherited variables     *)
(* --------------------------------------------------------------------- *)

Section TablesScriptEnvironment.
Import TablesScript.

(** X21.  Values of [MASTER], [TARGET] and [TABLES] inherited from the
    environment are overwritten before they are used: when the sourced
    file leaves these three variables as they are, [createSubtables] gets
    the values written in the script, whatever the environment held. *)
Theorem script_ignores_inherited_variables `{SourcedFiles} (env : gmap string string) :
  (forall vars name,
     name ∈ ["MASTER"; "TARGET"; "TABLES"] ->
     run_file "subtables.sh" vars !! name = vars !! name) ->
  performed (script (started env)).2 =
    [Sourced "subtables.sh";
     Called "createSubtables"
       ["v3/run3"; "/dev/CMSSW_10_1_0/HLT"; "/online/collisions/2018/2e34/v3.6/HLT";
        "online_grun"]].
Proof.
  intros Hkeeps.
  change (performed (script (started env)).2)
    with [Sourced "subtables.sh";
          Called "createSubtables"
            ["v3/run3";
             default EmptyString (run_file "subtables.sh" (assigned env) !! "MASTER");
             default EmptyString (run_file "subtables.sh" (assigned env) !! "TARGET");
             default EmptyString (run_file "subtables.sh" (assigned env) !! "TABLES")]].
  rewrite !Hkeeps
    by (repeat first [by apply list_elem_of_here | apply list_elem_of_further]).
  unfold assigned.
  by rewrite lookup_insert_ne, lookup_insert_ne, lookup_insert_eq,
             lookup_insert_ne, lookup_insert_eq, lookup_insert_eq.
Qed.

(** X21 for a sourced file that only defines functions, started with
    another [MASTER] in the environment. *)
Lemma script_with_inherited_MASTER :
  performed (@script defines_functions_only
               (started {["MASTER" := "/dev/CMSSW_9_2_0/HLT"]})).2 =
    [Sourced "subtables.sh";
     Called "createSubtables"
       ["v3/run3"; "/dev/CMSSW_10_1_0/HLT"; "/online/collisions/2018/2e34/v3.6/HLT";
        "online_grun"]].
Proof.
  apply (@script_ignores_inherited_variables defines_functions_only
           {["MASTER" := "/dev/CMSSW_9_2_0/HLT"]}).
  intros vars name _. reflexivity.
Defined.

End TablesScriptEnvironment.
